(** * Verification of the DTensor BERT demo (dtensor-keras-bert.py)

    A shallow embedding of the distribution layer of the program: the
    cross-client consensus, the input partitioner, the sharding packer and
    the training loop, with the properties the specification states about
    them. *)

From Stdlib Require Import ZArith List Lia.
From stdpp Require Import base numbers option list sorting gmap sets strings pretty.

Local Open Scope Z_scope.
Local Set Warnings "-clear-no-such-hyp".

(** ** Errors

    Exceptions of the Python program, by the name of the exception class.
    [Unfinished] is no exception: it is the outcome of a loop of the program
    that has no bound, which is followed here for a bounded number of
    rounds only. *)

Inductive error : Type :=
  | ValueError
  | KeyError
  | IndexError
  | InvalidArgumentError
  | RuntimeError
  | AssertionError
  | ZeroDivisionError
  | StopIteration
  | Unfinished.

Inductive result (A : Type) : Type :=
  | Ok (a : A)
  | Raise (e : error).
Arguments Ok {A} a.
Arguments Raise {A} e.

Global Instance result_ret : MRet result := λ A a, Ok a.
Global Instance result_bind : MBind result := λ A B f m,
  match m with Ok a => f a | Raise e => Raise e end.
Global Instance result_fmap : FMap result := λ A B f m,
  match m with Ok a => Ok (f a) | Raise e => Raise e end.

Definition of_option {A} (e : error) (o : option A) : result A :=
  match o with Some a => Ok a | None => Raise e end.

(** ** Module constants (lines 38-54 of the source) *)

Definition MODEL_DIM : string := "model".
Definition BATCH_DIM : string := "batch".
Definition mesh_dims : list (string * Z) := [(BATCH_DIM, 4); (MODEL_DIM, 2)].
Definition num_classes : Z := 2.
Definition vocab_size : Z := 100.
Definition batch_size : Z := 32.
Definition sequence_length : Z := 10.

(** ** Meshes, layouts and distributed tensors

    A client's view of a mesh: the named dimensions with their sizes and,
    for each device local to this client, the dictionary from dimension
    name to coordinate that [mesh.local_device_locations()] returns. *)

Record Mesh : Type := {
  dims : list (string * Z);
  device_type : string;
  local_device_locations : list (gmap string Z)
}.

Fixpoint assoc (d : string) (l : list (string * Z)) : option Z :=
  match l with
  | [] => None
  | (k, v) :: rest => if decide (k = d) then Some v else assoc d rest
  end.

(** [mesh.dim_size(name)] *)
Definition dim_size (mesh : Mesh) (d : string) : result Z :=
  of_option ValueError (assoc d (dims mesh)).

Inductive sharding_spec : Type :=
  | UNSHARDED
  | Sharded (d : string).

Record Layout : Type := {
  sharding_specs : list sharding_spec;
  layout_mesh : Mesh
}.

(** [dtensor.Layout.batch_sharded(mesh, batch_dim, rank)]: axis 0 sharded
    over [batch_dim], the other axes unsharded; the dimension has to be one
    of the mesh, or the library, which builds the layout, raises a
    [RuntimeError]. The names the library keeps for its own sharding
    specifications (unsharded, match) are taken here as any other name that
    is not of the mesh. *)
Definition batch_sharded (mesh : Mesh) (batch_dim : string) (rank : nat)
  : result Layout :=
  match assoc batch_dim (dims mesh) with
  | None => Raise RuntimeError
  | Some _ =>
      Ok {| sharding_specs := Sharded batch_dim :: replicate (rank - 1) UNSHARDED;
            layout_mesh := mesh |}
  end.

(** A tensor is the list of its rows along axis 0; [row_rank] is the rank
    of a row, so that [len(tensor.shape)] is its successor. *)
Class Rows (A : Type) : Type := row_rank : nat.
Global Instance scalar_rows : Rows Z := 0%nat.
Global Instance vector_rows {A} `{Rows A} : Rows (list A) := S (row_rank (A:=A)).

Definition tensor_rank {A} `{Rows A} (t : list A) : nat := S (row_rank (A:=A)).

(** The client-local view of a distributed tensor: its layout, one component
    per local device (in the mesh's device order) and the extent of the
    global shape along axis 0. *)
Record DTensor (A : Type) : Type := {
  dt_layout : Layout;
  dt_components : list (list A);
  dt_shape0 : Z
}.
Arguments dt_layout {A} _.
Arguments dt_components {A} _.
Arguments dt_shape0 {A} _.

(** Number of shards along axis 0 under a layout. *)
Definition num_shards0 (layout : Layout) : result Z :=
  match sharding_specs layout with
  | Sharded d :: _ => dim_size (layout_mesh layout) d
  | _ => Ok 1
  end.

Definition same_length {A} (c : list A) (cs : list (list A)) : bool :=
  forallb (λ c', Nat.eqb (length c') (length c)) cs.

(** [dtensor.pack(components, layout)]: one component per local device, all
    of one shape; the global extent along a sharded axis is the local extent
    times the number of shards. *)
Definition dtensor_pack {A} (components : list (list A)) (layout : Layout)
  : result (DTensor A) :=
  if negb (Nat.eqb (length components)
                   (length (local_device_locations (layout_mesh layout))))
  then Raise ValueError
  else match components with
       | [] => Raise ValueError
       | c :: cs =>
           if same_length c cs then
             n ← num_shards0 layout;
             Ok {| dt_layout := layout;
                   dt_components := components;
                   dt_shape0 := Z.of_nat (length c) * n |}
           else Raise InvalidArgumentError
       end.

(** [tf.split(value, num, axis=0)]: [num] equal contiguous pieces; the
    number of pieces has to be positive and to divide the extent. *)
Fixpoint chunks {A} (size : nat) (num : nat) (l : list A) : list (list A) :=
  match num with
  | O => []
  | S num' => take size l :: chunks size num' (drop size l)
  end.

Definition tf_split {A} (value : list A) (num : nat) : result (list (list A)) :=
  if Nat.eqb num 0 then Raise InvalidArgumentError
  else if Nat.eqb (length value `mod` num)%nat 0
       then Ok (chunks (length value `div` num)%nat num value)
       else Raise InvalidArgumentError.

(** ** The sharding packer: [shard_data] (lines 140-162) *)

(** The loop [for entry in mesh.local_device_locations():
    replicas.add(entry[batch_dim])]. *)
Fixpoint collect_replicas (batch_dim : string) (entries : list (gmap string Z))
    (replicas : gset Z) : result (gset Z) :=
  match entries with
  | [] => Ok replicas
  | entry :: rest =>
      match entry !! batch_dim with
      | None => Raise KeyError
      | Some c => collect_replicas batch_dim rest (replicas ∪ {[c]})
      end
  end.

(** [sorted(replicas)] *)
Definition sorted (replicas : gset Z) : list Z :=
  merge_sort Z.le (elements replicas).

Definition enumerate {A} (l : list A) : list (nat * A) :=
  zip (seq 0 (length l)) l.

(** The dictionary comprehension
    [{replica_id: slice_id for slice_id, replica_id in enumerate(sorted(replicas))}]. *)
Definition slice_insert (d : gmap Z nat) (p : nat * Z) : gmap Z nat :=
  <[p.2 := p.1]> d.

Definition replica_to_slice (replicas : gset Z) : gmap Z nat :=
  foldl slice_insert ∅ (enumerate (sorted replicas)).

(** The loop that picks, for every local device, the slice of its replica. *)
Fixpoint pick_components {A} (batch_dim : string) (r2s : gmap Z nat)
    (slices : list (list A)) (entries : list (gmap string Z))
  : result (list (list A)) :=
  match entries with
  | [] => Ok []
  | entry :: rest =>
      replica_id ← of_option KeyError (entry !! batch_dim);
      slice_id ← of_option KeyError (r2s !! replica_id);
      slice ← of_option IndexError (slices !! slice_id);
      components ← pick_components batch_dim r2s slices rest;
      Ok (slice :: components)
  end.

(** The slices [tf.split(tensor, len(replicas), axis=0)] of [shard_data]. *)
Definition shard_slices {A} (mesh : Mesh) (batch_dim : string) (tensor : list A)
  : result (list (list A)) :=
  replicas ← collect_replicas batch_dim (local_device_locations mesh) ∅;
  tf_split tensor (size replicas).

Definition shard_data {A} `{Rows A} (mesh : Mesh) (batch_dim : string)
    (tensor : list A) : result (DTensor A) :=
  layout ← batch_sharded mesh batch_dim (tensor_rank tensor);
  replicas ← collect_replicas batch_dim (local_device_locations mesh) ∅;
  let r2s := replica_to_slice replicas in
  slices ← tf_split tensor (size replicas);
  components ← pick_components batch_dim r2s slices (local_device_locations mesh);
  dtensor_pack components layout.

(** ** Processes

    Each client is a process with its identity in the run, the module-level
    variable [client_mesh], an allocator of object identities and the trace
    of what it has done so far. *)

Inductive event : Type :=
  | EvPrint (msg : string)
  | EvCreateMesh (obj : nat) (spec : list (string * Z))
  | EvTrainStep.

Record Process : Type := {
  client_id : nat;
  num_clients : nat;
  client_mesh : option (nat * Mesh);
  next_object : nat;
  trace : list event
}.

Definition M (A : Type) : Type := Process → result (A * Process).

Definition retM {A} (a : A) : M A := λ p, Ok (a, p).
Definition bindM {A B} (m : M A) (f : A → M B) : M B :=
  λ p, match m p with
       | Ok (a, p') => f a p'
       | Raise e => Raise e
       end.
Definition liftM {A} (r : result A) : M A :=
  λ p, match r with Ok a => Ok (a, p) | Raise e => Raise e end.
Definition emit (e : event) : M unit :=
  λ p, Ok (tt, {| client_id := client_id p; num_clients := num_clients p;
                  client_mesh := client_mesh p; next_object := next_object p;
                  trace := trace p ++ [e] |}).

Notation "x <~ m ;; k" := (bindM m (λ x, k))
  (at level 100, m at next level, right associativity).
Notation "m ;;; k" := (bindM m (λ _, k))
  (at level 100, right associativity).

(** *** Printing (lines 58-69) *)

Definition newline : string := String (Ascii.ascii_of_nat 10) EmptyString.

Fixpoint split_lines_aux (acc : string) (s : string) : list string :=
  match s with
  | EmptyString => [String.rev acc]
  | String c rest =>
      if Ascii.eqb c (Ascii.ascii_of_nat 10)
      then String.rev acc :: split_lines_aux EmptyString rest
      else split_lines_aux (String c acc) rest
  end.

(** [s.split("\n")] *)
Definition split_lines (s : string) : list string := split_lines_aux EmptyString s.

(** [sep.join(l)] *)
Fixpoint join (sep : string) (l : list string) : string :=
  match l with
  | [] => EmptyString
  | [s] => s
  | s :: rest => s +:+ sep +:+ join sep rest
  end.

(** [f"{n:03d}"] *)
Definition pad03 (n : nat) : string :=
  let s := pretty n in
  String.concat EmptyString (replicate (3 - String.length s) "0"%string) +:+ s.

(** [dprint] of the arguments, already turned to strings by [str]. *)
Definition dprint (args : list string) : M unit :=
  λ p,
    let prefix := ("[Client: " +:+ pad03 (client_id p) +:+ "] ")%string in
    let lines := split_lines (join " " args) in
    let msg := join newline (map (λ line, prefix +:+ line) lines) in
    emit (EvPrint msg) p.

(** [rprint]: only the leader client prints. *)
Definition rprint (args : list string) : M unit :=
  λ p, if Nat.eqb (client_id p) 0 then dprint args p else Ok (tt, p).

(** ** Cross-client consensus: [unique_across_clients] (lines 80-98) *)

(** [dtensor.create_distributed_mesh(spec, device_type, num_global_devices)]
    as this client sees it when the mesh has one device per client: the
    product of the sizes has to be the number of global devices, and the
    only local device sits at this client's index. *)
Definition create_client_mesh (spec : list (string * Z)) (dtype : string)
    (num_global_devices : Z) : M (nat * Mesh) :=
  λ p,
    if negb (Z.eqb (foldr Z.mul 1 spec.*2) num_global_devices)
    then Raise ValueError
    else
      let mesh := {| dims := spec; device_type := dtype;
                     local_device_locations :=
                       [list_to_map (map (λ d, (d, Z.of_nat (client_id p))) spec.*1)] |} in
      let obj := next_object p in
      Ok ((obj, mesh),
          {| client_id := client_id p; num_clients := num_clients p;
             client_mesh := client_mesh p; next_object := S obj;
             trace := trace p ++ [EvCreateMesh obj spec] |}).

Definition set_client_mesh (m : nat * Mesh) : M unit :=
  λ p, Ok (tt, {| client_id := client_id p; num_clients := num_clients p;
                  client_mesh := Some m; next_object := next_object p;
                  trace := trace p |}).

(** The integer of 32 signed bits that has the low 32 bits of [x]. *)
Definition wrap_int32 (x : Z) : Z := (x + 2 ^ 31) `mod` 2 ^ 32 - 2 ^ 31.

(** [tf.constant([x], tf.int32)]: an integer that fits 64 signed bits is cut
    to its low 32 bits, without an error; an integer beyond is refused. *)
Definition tf_constant_int32 (x : Z) : result (list Z) :=
  if (Z.leb (- 2 ^ 63) x && Z.ltb x (2 ^ 63))%bool
  then Ok [wrap_int32 x] else Raise ValueError.

(** [dtensor.relayout(packed, Layout([UNSHARDED], client_mesh))]: every
    client receives the whole global tensor, made of its own component at
    its own index and of the component each peer packed at the peer's. *)
Definition relayout_unsharded (peers : nat → Z) (self : nat) (packed : DTensor Z)
  : list Z :=
  concat (map (λ i, if Nat.eqb i self
                    then concat (dt_components packed)
                    else [peers i])
              (seq 0 (Z.to_nat (dt_shape0 packed)))).

(** [np.unique] of a one-dimensional array: sort, then drop repeats. *)
Fixpoint drop_repeats (l : list Z) : list Z :=
  match l with
  | [] => []
  | x :: rest =>
      match rest with
      | [] => [x]
      | y :: _ => if Z.eqb x y then drop_repeats rest else x :: drop_repeats rest
      end
  end.

Definition np_sort (l : list Z) : list Z := merge_sort Z.le l.
Definition np_unique (l : list Z) : list Z := drop_repeats (np_sort l).

(** [unique_across_clients(x)], where [peers i] is the value of the
    component client [i] packs in the same round: what it submits, as 32
    signed bits. *)
Definition unique_across_clients (peers : nat → Z) (x : Z) : M (list Z) :=
  λ p,
    (cm <~ match client_mesh p with
           | None =>
               m <~ create_client_mesh [("clients"%string, Z.of_nat (num_clients p))]
                                       "CPU" (Z.of_nat (num_clients p)) ;;
               set_client_mesh m ;;; retM m
           | Some m => retM m
           end ;;
     component <~ liftM (tf_constant_int32 x) ;;
     layout <~ liftM (Ok {| sharding_specs := [Sharded "clients"];
                            layout_mesh := cm.2 |}) ;;
     packed <~ liftM (dtensor_pack [component] layout) ;;
     let replicated := relayout_unsharded peers (client_id p) packed in
     let unique := np_unique replicated in
     let unique := np_sort unique in
     retM unique) p.

(** ** The input partitioner: [get_pipeline_params] (lines 104-120) *)

Record PipelineParams : Type := {
  input_pipeline_id : nat;
  num_input_pipelines : nat;
  num_local_replicas_in_sync : nat
}.

(** [min(replicas)] *)
Definition py_min (replicas : gset Z) : result Z :=
  match elements replicas with
  | [] => Raise ValueError
  | x :: rest => Ok (foldl (λ m y, if Z.ltb y m then y else m) x rest)
  end.

(** [l.index(x)] *)
Fixpoint index (x : Z) (l : list Z) : result nat :=
  match l with
  | [] => Raise ValueError
  | y :: rest => if Z.eqb y x then Ok 0%nat else S <$> index x rest
  end.

Definition get_pipeline_params (peers : nat → Z) (mesh : Mesh) : M PipelineParams :=
  replicas <~ liftM (collect_replicas BATCH_DIM (local_device_locations mesh) ∅) ;;
  first_replica <~ liftM (py_min replicas) ;;
  first_replicas <~ unique_across_clients peers first_replica ;;
  pipeline_id <~ liftM (index first_replica first_replicas) ;;
  retM {| input_pipeline_id := pipeline_id;
          num_input_pipelines := length first_replicas;
          num_local_replicas_in_sync := size replicas |}.

(** ** The random generator: [np.random.RandomState]

    The Mersenne Twister of Matsumoto and Nishimura, as the legacy
    generator of NumPy seeds and steps it, and the bounded integers
    [randint] draws from it by masking and rejection. *)

Module MT19937.

Definition MATRIX_A : Z := 0x9908b0df.
Definition UPPER_MASK : Z := 0x80000000.
Definition LOWER_MASK : Z := 0x7fffffff.

Definition u32 (x : Z) : Z := Z.land x 0xffffffff.

Record state : Type := { key : list Z; pos : nat }.

Fixpoint init_key (n : nat) (i : Z) (seed : Z) : list Z :=
  match n with
  | O => []
  | S n' =>
      seed :: init_key n' (i + 1)
                (u32 (1812433253 * Z.lxor seed (Z.shiftr seed 30) + i + 1))
  end.

(** [mt19937_seed] *)
Definition seed_state (seed : Z) : state :=
  {| key := init_key 624 0 (u32 seed); pos := 624 |}.

Definition twist_word (a b c : Z) : Z :=
  let y := Z.lor (Z.land a UPPER_MASK) (Z.land b LOWER_MASK) in
  Z.lxor (Z.lxor c (Z.shiftr y 1)) (if Z.odd y then MATRIX_A else 0).

(** The in-place regeneration of the 624 words. *)
Definition regenerate (k : list Z) : list Z :=
  foldl (λ k kk,
           <[kk := twist_word (k !!! kk)
                              (k !!! ((kk + 1) `mod` 624)%nat)
                              (k !!! ((kk + 397) `mod` 624)%nat)]> k)
        k (seq 0 624).

Definition temper (y : Z) : Z :=
  let y := Z.lxor y (Z.shiftr y 11) in
  let y := Z.lxor y (Z.land (u32 (Z.shiftl y 7)) 0x9d2c5680) in
  let y := Z.lxor y (Z.land (u32 (Z.shiftl y 15)) 0xefc60000) in
  Z.lxor y (Z.shiftr y 18).

(** [mt19937_next] *)
Definition next_uint32 (s : state) : Z * state :=
  let s := if Nat.eqb (pos s) 624
           then {| key := regenerate (key s); pos := 0 |} else s in
  (temper (key s !!! pos s), {| key := key s; pos := S (pos s) |}).

End MT19937.

(** The smallest mask of the form [2^k - 1] that covers [rng]. *)
Definition gen_mask (rng : Z) : Z :=
  let m := rng in
  let m := Z.lor m (Z.shiftr m 1) in
  let m := Z.lor m (Z.shiftr m 2) in
  let m := Z.lor m (Z.shiftr m 4) in
  let m := Z.lor m (Z.shiftr m 8) in
  let m := Z.lor m (Z.shiftr m 16) in
  Z.lor m (Z.shiftr m 32).

(** The rejection loop [while ((val = next_uint32() & mask) > rng);], cut
    after [fuel] draws. *)
Fixpoint bounded_masked_uint32 (fuel : nat) (rng mask : Z) (s : MT19937.state)
  : option (Z * MT19937.state) :=
  match fuel with
  | O => None
  | S fuel' =>
      let '(r, s') := MT19937.next_uint32 s in
      let val := Z.land r mask in
      if Z.ltb rng val then bounded_masked_uint32 fuel' rng mask s'
      else Some (val, s')
  end.

(** The number of draws a sample is followed for; the program itself goes
    on drawing, and a sample that takes more draws is [Unfinished] here. *)
Definition max_draws : nat := 1000.

Fixpoint bounded_fill (count : nat) (off rng : Z) (s : MT19937.state)
  : result (list Z * MT19937.state) :=
  match count with
  | O => Ok ([], s)
  | S count' =>
      '(v, s') ← (if Z.eqb rng 0 then Ok (0, s)
                  else if Z.eqb rng 0xffffffff then Ok (MT19937.next_uint32 s)
                  else of_option Unfinished
                         (bounded_masked_uint32 max_draws rng (gen_mask rng) s));
      '(vs, s'') ← bounded_fill count' off rng s';
      Ok (off + v :: vs, s'')
  end.

(** [np.random.RandomState(seed)] *)
Definition RandomState (seed : Z) : result MT19937.state :=
  if (Z.leb 0 seed && Z.leb seed 0xffffffff)%bool
  then Ok (MT19937.seed_state seed) else Raise ValueError.

(** [rng.randint(high, size=count)], for bounds that fit 32 bits. *)
Definition randint (high : Z) (count : nat) (s : MT19937.state)
  : result (list Z * MT19937.state) :=
  if Z.leb high 0 then Raise ValueError
  else bounded_fill count 0 (high - 1) s.

(** [rng.randint(high, size=(rows, cols))]: filled in row-major order. *)
Definition randint2 (high : Z) (rows cols : nat) (s : MT19937.state)
  : result (list (list Z) * MT19937.state) :=
  '(flat, s') ← randint high (rows * cols) s;
  Ok (chunks cols rows flat, s').

(** ** The synthetic dataset and [get_dataset] (lines 102-164) *)

(** The four arrays drawn from the generator seeded with the pipeline id
    (lines 125-130). *)
Record Arrays : Type := {
  word_id_data : list (list Z);
  mask_data : list (list Z);
  type_id_data : list (list Z);
  labels : list Z
}.

Definition synthetic_arrays (pipeline_id : nat) : result Arrays :=
  rng ← RandomState (Z.of_nat pipeline_id);
  '(w, rng) ← randint2 vocab_size (Z.to_nat batch_size) (Z.to_nat sequence_length) rng;
  '(m, rng) ← randint2 num_classes (Z.to_nat batch_size) (Z.to_nat sequence_length) rng;
  '(t, rng) ← randint2 num_classes (Z.to_nat batch_size) (Z.to_nat sequence_length) rng;
  '(l, rng) ← randint num_classes (Z.to_nat batch_size) rng;
  Ok {| word_id_data := w; mask_data := m; type_id_data := t; labels := l |}.

(** [tf.data.Dataset.from_tensor_slices(arrays).repeat().batch(n)]: the
    rows of the arrays, over and over, [n] at a time. *)
Record Dataset : Type := {
  ds_arrays : Arrays;
  ds_batch : nat
}.

Definition Dataset_batch (arrays : Arrays) (n : Z) : result Dataset :=
  if Z.leb n 0 then Raise InvalidArgumentError
  else Ok {| ds_arrays := arrays; ds_batch := Z.to_nat n |}.

(** The rows at positions [start, start + n) of the repeated array. *)
Definition repeated_rows {A} (rows : list A) (start n : nat) : result (list A) :=
  mapM (λ k, of_option StopIteration (rows !! ((start + k) `mod` length rows)%nat))
       (seq 0 n).

(** [next(iterator)]: an iterator is the number of rows consumed so far. *)
Definition ds_next (ds : Dataset) (it : nat) : result (Arrays * nat) :=
  let a := ds_arrays ds in
  let n := ds_batch ds in
  w ← repeated_rows (word_id_data a) it n;
  m ← repeated_rows (mask_data a) it n;
  t ← repeated_rows (type_id_data a) it n;
  l ← repeated_rows (labels a) it n;
  Ok ({| word_id_data := w; mask_data := m; type_id_data := t; labels := l |},
      (it + n)%nat).

(** The packing function [get_dataset] hands back: [shard_data] with the
    mesh and the batch dimension bound. *)
Definition Packer : Type := ∀ A, Rows A → list A → result (DTensor A).

Definition str_pipeline_params (pp : PipelineParams) : string :=
  ("{'input_pipeline_id': " +:+ pretty (input_pipeline_id pp) +:+
   ", 'num_input_pipelines': " +:+ pretty (num_input_pipelines pp) +:+
   ", 'num_local_replicas_in_sync': " +:+ pretty (num_local_replicas_in_sync pp) +:+
   "}")%string.

(** Python's [a // b] *)
Definition floordiv (a b : Z) : result Z :=
  if Z.eqb b 0 then Raise ZeroDivisionError else Ok (a `div` b).

Definition get_dataset (peers : nat → Z) (mesh : Mesh) : M (Dataset * Packer) :=
  pipeline_params <~ get_pipeline_params peers mesh ;;
  dprint ["Pipeline Params"%string; str_pipeline_params pipeline_params] ;;;
  arrays <~ liftM (synthetic_arrays (input_pipeline_id pipeline_params)) ;;
  size <~ liftM (dim_size mesh BATCH_DIM) ;;
  per_replica <~ liftM (floordiv batch_size size) ;;
  let client_local_batch_size :=
    per_replica * Z.of_nat (num_local_replicas_in_sync pipeline_params) in
  client_local_dataset <~ liftM (Dataset_batch arrays client_local_batch_size) ;;
  retM (client_local_dataset, (λ A R tensor, shard_data (A:=A) (H:=R) mesh BATCH_DIM tensor) : Packer).

(** ** The training loop: [train_model] (lines 179-214)

    The model, the loss and the optimizer are external: a training step is
    a function from the state of model and optimizer and a packed batch to
    the next state and the loss, and the losses are values of a type with
    the operations the loop uses. *)

Section TrainModel.

Context {W F : Type}.
Variable train_step :
  W → DTensor (list Z) * DTensor (list Z) * DTensor (list Z) → DTensor Z → W * F.
Variable fzero : F.
Variable fadd : F → F → F.
Variable fdiv : F → Z → F.
Variable reduce_mean : F → F.
Variable str_loss : F → string.

Variable dataset : Dataset.
Variable pack_fn : Packer.
Variable steps_per_epoch : Z.
Variable num_epochs : Z.

(** [range(n)] *)
Definition range (n : Z) : list nat := seq 0 (Z.to_nat n).

(** One pass through the body of the inner loop. *)
Definition train_one (w : W) (it : nat) (total_loss : F) : M (W * nat * F) :=
  batch <~ liftM (ds_next dataset it) ;;
  d_word_id_data <~ liftM (pack_fn _ _ (word_id_data batch.1)) ;;
  d_mask_data <~ liftM (pack_fn _ _ (mask_data batch.1)) ;;
  d_type_id_data <~ liftM (pack_fn _ _ (type_id_data batch.1)) ;;
  d_labels <~ liftM (pack_fn _ _ (labels batch.1)) ;;
  liftM (if Z.eqb (dt_shape0 d_labels) batch_size then Ok tt else Raise AssertionError) ;;;
  emit EvTrainStep ;;;
  let '(w', loss) := train_step w (d_word_id_data, d_mask_data, d_type_id_data) d_labels in
  retM (w', batch.2, fadd total_loss loss).

Fixpoint train_steps (steps : list nat) (w : W) (it : nat) (total_loss : F)
  : M (W * nat * F) :=
  match steps with
  | [] => retM (w, it, total_loss)
  | _ :: rest =>
      r <~ train_one w it total_loss ;;
      train_steps rest r.1.1 r.1.2 r.2
  end.

Fixpoint train_epochs (epochs : list nat) (w : W) (it : nat) (train_losses : list F)
  : M (W * list F) :=
  match epochs with
  | [] => retM (w, train_losses)
  | epoch :: rest =>
      r <~ train_steps (range steps_per_epoch) w it fzero ;;
      mean <~ liftM (if Z.eqb steps_per_epoch 0 then Raise ZeroDivisionError
                     else Ok (fdiv r.2 steps_per_epoch)) ;;
      let train_loss := reduce_mean mean in
      rprint [("Epoch " +:+ pretty epoch +:+ ": Loss: " +:+ str_loss train_loss)%string] ;;;
      train_epochs rest r.1.1 r.1.2 (train_losses ++ [train_loss])
  end.

Definition train_model (w : W) : M (W * list F) :=
  rprint ["Training started..."%string] ;;;
  train_epochs (range num_epochs) w 0%nat [].

End TrainModel.

(** ** Notions of the specification *)

(** A client's view of a mesh is well formed when the client owns a device,
    every local device has, for every dimension, a coordinate below the
    size of the dimension, and the sizes fit 32 signed bits. *)
Definition wf_location (ds : list (string * Z)) (entry : gmap string Z) : bool :=
  forallb (λ d, match entry !! d.1 with
                | Some c => Z.leb 0 c && Z.ltb c d.2
                | None => false
                end) ds.

Definition wf_mesh (mesh : Mesh) : bool :=
  negb (Nat.eqb (length (local_device_locations mesh)) 0)
  && forallb (λ d, Z.ltb d.2 (2 ^ 31)) (dims mesh)
  && forallb (wf_location (dims mesh)) (local_device_locations mesh).

(** The coordinates of the local devices along a dimension, in the mesh's
    device order. *)
Definition batch_coords (batch_dim : string) (mesh : Mesh) : list Z :=
  omap (λ entry : gmap string Z, entry !! batch_dim) (local_device_locations mesh).

(** The distinct values of a list, in ascending order. *)
Definition distinct_sorted (l : list Z) : list Z :=
  merge_sort Z.le (remove_dups l).

(** The number [R] of distinct coordinates along the batch dimension. *)
Definition replica_count (batch_dim : string) (mesh : Mesh) : nat :=
  length (remove_dups (batch_coords batch_dim mesh)).

(** The component the first local device of replica [r] holds. *)
Definition component_at {A} (batch_dim : string) (mesh : Mesh) (dt : DTensor A)
    (r : Z) : option (list A) :=
  found ← list_find (λ entry : gmap string Z, entry !! batch_dim = Some r)
                    (local_device_locations mesh);
  dt_components dt !! found.1.

(** Re-assembly along the batch dimension: the components of the distinct
    replicas, in the order of their coordinates, one after the other. *)
Definition reassemble {A} (batch_dim : string) (mesh : Mesh) (dt : DTensor A)
  : option (list A) :=
  @concat A <$> mapM (component_at batch_dim mesh dt)
                  (distinct_sorted (batch_coords batch_dim mesh)).

(** The mesh of the clients, as client [c] of [n] sees it. *)
Definition client_mesh_of (c n : nat) : Mesh :=
  {| dims := [("clients"%string, Z.of_nat n)];
     device_type := "CPU";
     local_device_locations := [{["clients"%string := Z.of_nat c]}] |}.

(** A process is well formed when its identity is one of the run and the
    mesh it has cached, if any, is the mesh of the clients. *)
Definition wf_process (p : Process) : Prop :=
  (client_id p < num_clients p)%nat ∧
  ∀ m, client_mesh p = Some m → m.2 = client_mesh_of (client_id p) (num_clients p).

Definition int32 (x : Z) : Prop := - 2 ^ 31 ≤ x < 2 ^ 31.
Definition int64 (x : Z) : Prop := - 2 ^ 63 ≤ x < 2 ^ 63.

(** The process after it has cached the mesh [m]. *)
Definition set_mesh (p : Process) (m : nat * Mesh) (next : nat) (tr : list event) : Process :=
  {| client_id := client_id p; num_clients := num_clients p;
     client_mesh := Some m; next_object := next; trace := tr |}.

(** What a client sees after the relayout. *)
Definition gathered (peers : nat → Z) (c n : nat) (x : Z) : list Z :=
  map (λ i, if Nat.eqb i c then x else peers i) (seq 0 n).

(** *** The scenario of the specification

    Two clients with four devices each on the 4 x 2 mesh: the first owns the
    batch coordinates 0 and 1, the second 2 and 3. *)
Definition location (b m : Z) : gmap string Z :=
  <[BATCH_DIM := b]> (<[MODEL_DIM := m]> ∅).

Definition client_A : Mesh :=
  {| dims := mesh_dims; device_type := "GPU";
     local_device_locations := [location 0 0; location 0 1; location 1 0; location 1 1] |}.

Definition client_B : Mesh :=
  {| dims := mesh_dims; device_type := "GPU";
     local_device_locations := [location 2 0; location 2 1; location 3 0; location 3 1] |}.

(** A process that has just started. *)
Definition start_process (c n : nat) : Process :=
  {| client_id := c; num_clients := n; client_mesh := None;
     next_object := 0; trace := [] |}.

(** A round of a collective: client [i] submits the [i]-th value. *)
Definition round_peers (xs : list Z) : nat → Z := λ i, default 0 (xs !! i).

(** The representative of a client: the least batch coordinate among its
    local devices. *)
Definition list_min (l : list Z) : option Z :=
  match l with
  | [] => None
  | x :: rest => Some (foldr Z.min x rest)
  end.

Definition representative (mesh : Mesh) : Z :=
  default 0 (list_min (batch_coords BATCH_DIM mesh)).

(** The position of a value in a list, for the values that occur. *)
Definition position (l : list Z) (x : Z) : nat :=
  match index x l with Ok k => k | Raise _ => 0%nat end.

(** What a process does before it trains: it prints, asks the consensus,
    derives its pipeline parameters and builds its dataset. *)
Inductive action : Type :=
  | ActDprint (args : list string)
  | ActRprint (args : list string)
  | ActUnique (peers : nat → Z) (x : Z)
  | ActPipelineParams (peers : nat → Z) (mesh : Mesh)
  | ActGetDataset (peers : nat → Z) (mesh : Mesh).

Definition perform (a : action) : M unit :=
  match a with
  | ActDprint args => dprint args
  | ActRprint args => rprint args
  | ActUnique peers x => (_ <~ unique_across_clients peers x ;; retM tt)
  | ActPipelineParams peers mesh => (_ <~ get_pipeline_params peers mesh ;; retM tt)
  | ActGetDataset peers mesh => (_ <~ get_dataset peers mesh ;; retM tt)
  end.

(** The states of the process after each of the actions. *)
Fixpoint perform_all (acts : list action) (p : Process) : result (list Process) :=
  match acts with
  | [] => Ok []
  | a :: rest =>
      match perform a p with
      | Ok (_, p') => cons p' <$> perform_all rest p'
      | Raise e => Raise e
      end
  end.

(** Whether an action goes through [unique_across_clients]. *)
Definition calls_unique (a : action) : bool :=
  match a with
  | ActDprint _ | ActRprint _ => false
  | _ => true
  end.

(** The number of meshes of the clients a process has built. *)
Definition is_create (e : event) : bool :=
  match e with EvCreateMesh _ _ => true | _ => false end.

Definition mesh_builds (tr : list event) : nat :=
  length (List.filter is_create tr).

(** How a step leaves the cache: untouched, or filled if it was empty. *)
Definition cache_step (calls : bool) (p p' : Process) : Prop :=
  if calls then
    match client_mesh p with
    | Some m => client_mesh p' = Some m ∧ mesh_builds (trace p') = mesh_builds (trace p)
    | None => ∃ m, client_mesh p' = Some m ∧ mesh_builds (trace p') = S (mesh_builds (trace p))
    end
  else client_mesh p' = client_mesh p ∧ mesh_builds (trace p') = mesh_builds (trace p).

(** The four arrays have [batch_size] rows each. *)
Definition full_arrays (a : Arrays) : Prop :=
  length (word_id_data a) = 32%nat ∧ length (mask_data a) = 32%nat ∧
  length (type_id_data a) = 32%nat ∧ length (labels a) = 32%nat.

(** The first row of word ids tells the four pipelines apart. *)
Definition first_word_ids (a : Arrays) : list Z := default [] (head (word_id_data a)).

(** *** Notions for the training loop *)

(** The text [dprint] prints for its arguments at client [c]. *)
Definition dprint_text (c : nat) (args : list string) : string :=
  join newline
       (map (λ line, ("[Client: " +:+ pad03 c +:+ "] ") +:+ line)%string
            (split_lines (join " " args))).

(** The process after it has done [evs]. *)
Definition add_trace (p : Process) (evs : list event) : Process :=
  {| client_id := client_id p; num_clients := num_clients p;
     client_mesh := client_mesh p; next_object := next_object p;
     trace := trace p ++ evs |}.

(** What [rprint] adds to the trace of client [c]. *)
Definition rprint_events (c : nat) (args : list string) : list event :=
  if Nat.eqb c 0 then [EvPrint (dprint_text c args)] else [].

Definition is_step (e : event) : bool :=
  match e with EvTrainStep => true | _ => false end.

Definition is_print (e : event) : bool :=
  match e with EvPrint _ => true | _ => false end.

(** The number of training steps in a trace, and its prints. *)
Definition count_steps (evs : list event) : nat := length (List.filter is_step evs).
Definition prints (evs : list event) : list event := List.filter is_print evs.

Section TrainSpec.

Context {W F : Type}.
Variable train_step :
  W → DTensor (list Z) * DTensor (list Z) * DTensor (list Z) → DTensor Z → W * F.
Variable fzero : F.
Variable fadd : F → F → F.
Variable fdiv : F → Z → F.
Variable str_loss : F → string.
Variable dataset : Dataset.
Variable pack_fn : Packer.
Variable steps_per_epoch : Z.
Variable num_epochs : Z.

(** One training step as a function of the state of the model and of the
    iterator: the next batch, packed, through the training step. *)
Definition step (w : W) (it : nat) : result (W * nat * F) :=
  batch ← ds_next dataset it;
  d_word_id_data ← pack_fn _ _ (word_id_data batch.1);
  d_mask_data ← pack_fn _ _ (mask_data batch.1);
  d_type_id_data ← pack_fn _ _ (type_id_data batch.1);
  d_labels ← pack_fn _ _ (labels batch.1);
  if Z.eqb (dt_shape0 d_labels) batch_size
  then let r := train_step w (d_word_id_data, d_mask_data, d_type_id_data) d_labels in
       Ok (r.1, batch.2, r.2)
  else Raise AssertionError.

(** The losses of [n] steps in a row. *)
Fixpoint steps_losses (n : nat) (w : W) (it : nat) : result (W * nat * list F) :=
  match n with
  | O => Ok (w, it, [])
  | S n' =>
      r ← step w it;
      rest ← steps_losses n' r.1.1 r.1.2;
      Ok (rest.1, r.2 :: rest.2)
  end.

(** The loss reported for an epoch: the sum of the losses of its steps
    over the number of steps. *)
Definition epoch_loss (losses : list F) : F :=
  fdiv (foldl fadd fzero losses) steps_per_epoch.

Definition epoch_report (epoch : nat) (loss : F) : list string :=
  [("Epoch " +:+ pretty epoch +:+ ": Loss: " +:+ str_loss loss)%string].

(** What an epoch adds to the trace of client [c]. *)
Definition epoch_events (c : nat) (epoch : nat) (loss : F) : list event :=
  replicate (Z.to_nat steps_per_epoch) EvTrainStep ++ rprint_events c (epoch_report epoch loss).

(** What the training adds to the trace of client [c]. *)
Definition training_events (c : nat) (epochs : list nat) (losses : list F) : list event :=
  rprint_events c ["Training started..."%string]
  ++ concat (zip_with (epoch_events c) epochs losses).

End TrainSpec.

(** A run of the training loop to test the statements on: the dataset and
    the packer of the first client of the scenario, and a training step that
    counts the steps and reports the extent of the labels plus the count. *)
Definition demo_dataset : Dataset :=
  {| ds_arrays := match synthetic_arrays 0 with
                  | Ok a => a
                  | Raise _ => {| word_id_data := []; mask_data := [];
                                  type_id_data := []; labels := [] |}
                  end;
     ds_batch := 16 |}.

Definition demo_packer : Packer :=
  λ A R tensor, shard_data (A:=A) (H:=R) client_A BATCH_DIM tensor.

Definition demo_train_step (w : nat)
    (features : DTensor (list Z) * DTensor (list Z) * DTensor (list Z))
    (d_labels : DTensor Z) : nat * Z :=
  (S w, dt_shape0 d_labels + Z.of_nat w).

(** The order of the integers is total. *)
Global Instance Z_le_total : Total Z.le.
Proof. intros x y. lia. Qed.

(** The rank of a coordinate among the distinct coordinates of the local
    devices: how many of them are below it. *)
Definition coordinate_rank (coords : list Z) (c : Z) : nat :=
  length (List.filter (λ c', Z.ltb c' c) (remove_dups coords)).

(** A string without a line break. *)
Fixpoint single_line (s : string) : bool :=
  match s with
  | EmptyString => true
  | String c rest => negb (Ascii.eqb c (Ascii.ascii_of_nat 10)) && single_line rest
  end.

(** * Properties *)

(** ** Results *)

Lemma of_option_Some {A} (e : error) (o : option A) (a : A) :
  o = Some a → of_option e o = Ok a.
Proof. by intros ->. Qed.

(** ** Splitting *)

Section Chunks.
Context {A : Type}.
Implicit Types l value : list A.

Lemma length_chunks size num l : length (chunks size num l) = num.
Proof. revert l. induction num as [|num IH]; intros l; simpl; [done|]. by rewrite IH. Qed.

Lemma concat_chunks size num l :
  (num * size)%nat = length l → concat (chunks size num l) = l.
Proof.
  revert l. induction num as [|num IH]; intros l Hlen; simpl.
  - symmetry. apply nil_length_inv. simpl in Hlen. lia.
  - rewrite IH; [apply take_drop|]. rewrite length_drop. lia.
Qed.

Lemma chunks_lengths size num l :
  (num * size ≤ length l)%nat → Forall (λ c, length c = size) (chunks size num l).
Proof.
  revert l. induction num as [|num IH]; intros l Hlen; simpl; constructor.
  - rewrite length_take. lia.
  - apply IH. rewrite length_drop. lia.
Qed.

Lemma chunks_lookup size num l k :
  (k < num)%nat → chunks size num l !! k = Some (take size (drop (k * size) l)).
Proof.
  revert l k. induction num as [|num IH]; intros l k Hk; [lia|].
  destruct k as [|k]; simpl; [done|].
  rewrite IH by lia. by rewrite drop_drop, (Nat.add_comm size).
Qed.

Lemma tf_split_Ok value num :
  num ≠ 0%nat → (num | length value)%nat →
  tf_split value num = Ok (chunks (length value `div` num)%nat num value).
Proof.
  intros Hnum [q Hq]. unfold tf_split.
  destruct (Nat.eqb_spec num 0); [done|].
  rewrite Hq, Nat.Div0.mod_mul. done.
Qed.

Lemma tf_split_Raise value num :
  ¬ (num | length value)%nat → tf_split value num = Raise InvalidArgumentError.
Proof.
  intros Hndiv. unfold tf_split.
  destruct (Nat.eqb_spec num 0); [done|].
  destruct (Nat.eqb_spec (length value `mod` num) 0) as [Hmod|]; [|done].
  destruct Hndiv. exists (length value `div` num)%nat.
  pose proof (Nat.div_mod (length value) num). lia.
Qed.

Lemma tf_split_inv value num slices :
  tf_split value num = Ok slices →
  num ≠ 0%nat ∧ (num | length value)%nat ∧
  slices = chunks (length value `div` num)%nat num value.
Proof.
  unfold tf_split. destruct (Nat.eqb_spec num 0); [done|].
  destruct (Nat.eqb_spec (length value `mod` num) 0) as [Hmod|]; [|done].
  intros [= <-]. split_and!; [done| |done].
  exists (length value `div` num)%nat.
  pose proof (Nat.div_mod (length value) num). lia.
Qed.
End Chunks.

(** ** Meshes and replicas *)

Lemma assoc_elem_of d ds n : assoc d ds = Some n → (d, n) ∈ ds.
Proof.
  induction ds as [|[k v] ds IH]; simpl; [done|].
  case_decide as Hk; [intros [= ->]; subst; left|right; auto].
Qed.

Lemma wf_mesh_nonempty mesh : wf_mesh mesh = true → local_device_locations mesh ≠ [].
Proof.
  unfold wf_mesh. intros H Hnil. rewrite Hnil in H. done.
Qed.

Lemma wf_mesh_coordinate mesh entry d n :
  wf_mesh mesh = true → entry ∈ local_device_locations mesh →
  assoc d (dims mesh) = Some n →
  ∃ c, entry !! d = Some c ∧ 0 ≤ c < n ∧ n < 2 ^ 31.
Proof.
  unfold wf_mesh. intros [[_ Hsz]%andb_prop Hloc]%andb_prop Hentry Hd%assoc_elem_of.
  rewrite forallb_forall in Hsz, Hloc.
  apply list_elem_of_In in Hentry, Hd.
  specialize (Hloc _ Hentry). unfold wf_location in Hloc.
  rewrite forallb_forall in Hloc. specialize (Hloc _ Hd). specialize (Hsz _ Hd).
  simpl in *. destruct (entry !! d) as [c|]; [|done].
  exists c. split; [done|]. lia.
Qed.

Lemma wf_mesh_has_coordinate mesh d :
  wf_mesh mesh = true → is_Some (assoc d (dims mesh)) →
  Forall (λ entry : gmap string Z, is_Some (entry !! d)) (local_device_locations mesh).
Proof.
  intros Hwf [n Hn]. apply Forall_forall. intros entry Hentry.
  destruct (wf_mesh_coordinate _ _ _ _ Hwf Hentry Hn) as (c & -> & _). eauto.
Qed.

Lemma collect_replicas_Ok d (es : list (gmap string Z)) (acc : gset Z) :
  Forall (λ entry : gmap string Z, is_Some (entry !! d)) es →
  collect_replicas d es acc = Ok (acc ∪ list_to_set (omap (λ e : gmap string Z, e !! d) es)).
Proof.
  intros Hes. revert acc. induction Hes as [|e es [c Hc] _ IH]; intros acc; simpl.
  - f_equal. set_solver.
  - rewrite Hc. simpl. rewrite IH. f_equal. set_solver.
Qed.

Lemma collect_replicas_inv d (es : list (gmap string Z)) (acc r : gset Z) :
  collect_replicas d es acc = Ok r →
  Forall (λ entry : gmap string Z, is_Some (entry !! d)) es.
Proof.
  revert acc. induction es as [|e es IH]; intros acc; simpl; [constructor|].
  destruct (e !! d) as [c|] eqn:Hc; [|done]. intros H. constructor; eauto.
Qed.

Lemma sorted_list_to_set (l : list Z) : sorted (list_to_set l) = distinct_sorted l.
Proof.
  unfold sorted, distinct_sorted.
  apply (Sorted_unique Z.le); try apply Sorted_merge_sort; try apply _.
  rewrite !merge_sort_Permutation.
  apply NoDup_Permutation; [apply NoDup_elements|apply NoDup_remove_dups|].
  intros x. rewrite elem_of_elements, elem_of_list_to_set, elem_of_remove_dups. done.
Qed.

Lemma size_list_to_set_distinct (l : list Z) :
  size (list_to_set (C:=gset Z) l) = length (distinct_sorted l).
Proof.
  rewrite <-sorted_list_to_set. unfold sorted, size, set_size. simpl.
  by rewrite merge_sort_Permutation.
Qed.

Lemma length_distinct_sorted (l : list Z) :
  length (distinct_sorted l) = length (remove_dups l).
Proof. unfold distinct_sorted. by rewrite merge_sort_Permutation. Qed.

Lemma NoDup_distinct_sorted (l : list Z) : NoDup (distinct_sorted l).
Proof. unfold distinct_sorted. rewrite merge_sort_Permutation. apply NoDup_remove_dups. Qed.

Lemma elem_of_distinct_sorted (l : list Z) x : x ∈ distinct_sorted l ↔ x ∈ l.
Proof. unfold distinct_sorted. by rewrite merge_sort_Permutation, elem_of_remove_dups. Qed.

(** ** The sharding packer *)

Lemma foldl_slice_other (l : list Z) (n : nat) (m : gmap Z nat) r :
  r ∉ l → foldl slice_insert m (zip (seq n (length l)) l) !! r = m !! r.
Proof.
  revert n m. induction l as [|x l IH]; intros n m Hr; simpl; [done|].
  apply not_elem_of_cons in Hr as [Hrx Hr].
  rewrite IH by done. unfold slice_insert. simpl. by rewrite lookup_insert_ne.
Qed.

Lemma foldl_slice_lookup (l : list Z) (n : nat) (m : gmap Z nat) k r :
  NoDup l → l !! k = Some r →
  foldl slice_insert m (zip (seq n (length l)) l) !! r = Some (n + k)%nat.
Proof.
  intros Hnd. revert n m k. induction Hnd as [|x l Hx Hnd IH]; intros n m k Hk; [done|].
  destruct k as [|k]; simpl in *.
  - injection Hk as ->. rewrite foldl_slice_other by done.
    unfold slice_insert. simpl. rewrite lookup_insert_eq. f_equal. lia.
  - rewrite (IH _ _ k) by done. f_equal. lia.
Qed.

Lemma replica_to_slice_lookup (l : list Z) k r :
  distinct_sorted l !! k = Some r →
  replica_to_slice (list_to_set l) !! r = Some k.
Proof.
  intros Hk. unfold replica_to_slice, enumerate. rewrite sorted_list_to_set.
  by rewrite (foldl_slice_lookup _ 0 ∅ k r) by auto using NoDup_distinct_sorted.
Qed.

Lemma pick_components_Ok {A} d (r2s : gmap Z nat) (slices : list (list A))
    (es : list (gmap string Z)) :
  Forall (λ entry : gmap string Z,
            ∃ c k, entry !! d = Some c ∧ r2s !! c = Some k ∧ is_Some (slices !! k)) es →
  ∃ comps, pick_components d r2s slices es = Ok comps ∧
    Forall2 (λ (entry : gmap string Z) comp,
               ∃ c k, entry !! d = Some c ∧ r2s !! c = Some k ∧ slices !! k = Some comp)
            es comps.
Proof.
  induction 1 as [|e es (c & k & Hc & Hk & [s Hs]) _ (comps & IH & Hall)]; simpl.
  - exists []. split; [done|constructor].
  - exists (s :: comps). rewrite Hc. simpl. rewrite Hk. simpl. rewrite Hs. simpl.
    rewrite IH. simpl. split; [done|]. constructor; eauto.
Qed.

Lemma same_length_true {A} (c : list A) cs :
  Forall (λ c', length c' = length c) cs → same_length c cs = true.
Proof.
  intros H. unfold same_length. apply forallb_forall. intros c' Hc'%list_elem_of_In.
  rewrite Forall_forall in H. apply Nat.eqb_eq. auto.
Qed.

Lemma dtensor_pack_Ok {A} (comps : list (list A)) (layout : Layout) d rest n size :
  sharding_specs layout = Sharded d :: rest →
  assoc d (dims (layout_mesh layout)) = Some n →
  length comps = length (local_device_locations (layout_mesh layout)) →
  comps ≠ [] →
  Forall (λ c, length c = size) comps →
  dtensor_pack comps layout =
    Ok {| dt_layout := layout; dt_components := comps;
          dt_shape0 := Z.of_nat size * n |}.
Proof.
  intros Hspec Hn Hlen Hne Hall. unfold dtensor_pack.
  rewrite Hlen, Nat.eqb_refl. simpl.
  destruct comps as [|c cs]; [done|].
  apply Forall_cons in Hall as [Hc Hcs].
  rewrite same_length_true by (by rewrite Hc).
  unfold num_shards0, dim_size. rewrite Hspec, Hn. simpl. by rewrite Hc.
Qed.

Lemma batch_coords_complete d mesh :
  Forall (λ entry : gmap string Z, is_Some (entry !! d)) (local_device_locations mesh) →
  Forall2 (λ (entry : gmap string Z) c, entry !! d = Some c)
          (local_device_locations mesh) (batch_coords d mesh).
Proof.
  unfold batch_coords. induction 1 as [|e es [c Hc] _ IH]; simpl; [constructor|].
  rewrite Hc. simpl. by constructor.
Qed.

Lemma replica_count_pos d mesh :
  wf_mesh mesh = true → is_Some (assoc d (dims mesh)) → replica_count d mesh ≠ 0%nat.
Proof.
  intros Hwf Hd Hz. pose proof (wf_mesh_nonempty _ Hwf) as Hne.
  pose proof (batch_coords_complete d mesh (wf_mesh_has_coordinate _ _ Hwf Hd)) as Hcs.
  unfold replica_count in Hz. apply nil_length_inv in Hz.
  destruct (batch_coords d mesh) as [|c cs].
  - apply Forall2_nil_inv_r in Hcs. done.
  - assert (c ∈ remove_dups (c :: cs)) as Hin by (apply elem_of_remove_dups; left).
    rewrite Hz in Hin. by apply elem_of_nil in Hin.
Qed.

Section ShardData.
Context {A : Type} `{Rows A}.

Lemma shard_data_spec mesh d n (tensor : list A) :
  wf_mesh mesh = true → assoc d (dims mesh) = Some n →
  (replica_count d mesh | length tensor)%nat →
  let R := replica_count d mesh in
  let slices := chunks (length tensor `div` R)%nat R tensor in
  ∃ dt, shard_data mesh d tensor = Ok dt ∧
    shard_slices mesh d tensor = Ok slices ∧
    length (dt_components dt) = length (local_device_locations mesh) ∧
    (∀ i (entry : gmap string Z) c k,
       local_device_locations mesh !! i = Some entry → entry !! d = Some c →
       distinct_sorted (batch_coords d mesh) !! k = Some c →
       dt_components dt !! i = slices !! k) ∧
    dt_shape0 dt = Z.of_nat (length tensor `div` R) * n.
Proof.
  intros Hwf Hd Hdiv R slices.
  assert (is_Some (assoc d (dims mesh))) as Hsome by eauto.
  pose proof (wf_mesh_has_coordinate _ _ Hwf Hsome) as Hcoord.
  pose proof (replica_count_pos _ _ Hwf Hsome) as HR.
  pose proof (batch_coords_complete d mesh Hcoord) as Hcs.
  assert (size (list_to_set (C:=gset Z) (batch_coords d mesh)) = R) as Hsize.
  { by rewrite size_list_to_set_distinct, length_distinct_sorted. }
  assert (collect_replicas d (local_device_locations mesh) ∅
          = Ok (list_to_set (batch_coords d mesh))) as Hrep.
  { rewrite collect_replicas_Ok by done. f_equal. unfold batch_coords. set_solver. }
  assert (tf_split tensor R = Ok slices) as Hsplit by (by apply tf_split_Ok).
  destruct (pick_components_Ok d (replica_to_slice (list_to_set (batch_coords d mesh)))
              slices (local_device_locations mesh)) as (comps & Hpick & Hcomps).
  { apply Forall_forall. intros entry Hentry.
    destruct (wf_mesh_coordinate _ _ _ _ Hwf Hentry Hd) as (c & Hc & _).
    assert (c ∈ distinct_sorted (batch_coords d mesh)) as Hin.
    { apply elem_of_distinct_sorted.
      apply list_elem_of_lookup in Hentry as [i Hi].
      destruct (Forall2_lookup_l _ _ _ _ _ Hcs Hi) as (c' & Hc' & Hec').
      apply list_elem_of_lookup. exists i. congruence. }
    apply list_elem_of_lookup in Hin as [k Hk].
    exists c, k. split_and!; [done|by apply replica_to_slice_lookup|].
    apply lookup_lt_is_Some. unfold slices. rewrite length_chunks.
    apply lookup_lt_Some in Hk. rewrite length_distinct_sorted in Hk. done. }
  exists {| dt_layout := {| sharding_specs := Sharded d :: replicate (tensor_rank tensor - 1) UNSHARDED;
                            layout_mesh := mesh |};
            dt_components := comps;
            dt_shape0 := Z.of_nat (length tensor `div` R) * n |}.
  split_and!; simpl.
  - unfold shard_data, batch_sharded. rewrite Hd. simpl. rewrite Hrep. simpl.
    rewrite Hsize, Hsplit. simpl. rewrite Hpick. simpl.
    apply dtensor_pack_Ok with (d := d) (rest := replicate (tensor_rank tensor - 1) UNSHARDED);
      simpl; [done|done| | |].
    + symmetry. by eapply Forall2_length.
    + intros ->. apply Forall2_nil_inv_r in Hcomps.
      by apply (wf_mesh_nonempty _ Hwf).
    + apply Forall_forall. intros comp Hcomp.
      apply list_elem_of_lookup in Hcomp as [i Hi].
      destruct (Forall2_lookup_r _ _ _ _ _ Hcomps Hi) as (e & _ & c & k & _ & _ & Hk).
      assert (Forall (λ c, length c = (length tensor `div` R)%nat) slices) as Hls.
      { apply chunks_lengths. destruct Hdiv as [q Hq]. fold R in Hq.
        rewrite Hq, Nat.div_mul by done. lia. }
      rewrite Forall_forall in Hls. apply Hls. apply list_elem_of_lookup. eauto.
  - unfold shard_slices. rewrite Hrep. simpl. by rewrite Hsize.
  - symmetry. by eapply Forall2_length.
  - intros i entry c k Hi Hc Hk.
    destruct (Forall2_lookup_l _ _ _ _ _ Hcomps Hi) as (comp & Hcompi & c' & k' & Hc' & Hk' & Hs).
    rewrite Hcompi, <-Hs. f_equal.
    apply replica_to_slice_lookup in Hk. congruence.
  - done.
Qed.
End ShardData.

(** ** Sorting and removing repeats *)

Lemma drop_repeats_cons x l :
  drop_repeats (x :: l) =
    match l with
    | [] => [x]
    | y :: _ => if Z.eqb x y then drop_repeats l else x :: drop_repeats l
    end.
Proof. done. Qed.

Lemma elem_of_drop_repeats l x : x ∈ drop_repeats l ↔ x ∈ l.
Proof.
  induction l as [|y l IH]; [done|].
  rewrite drop_repeats_cons. destruct l as [|z l]; [done|].
  destruct (Z.eqb_spec y z) as [->|Hne].
  - rewrite IH, !elem_of_cons. tauto.
  - rewrite !elem_of_cons, IH, elem_of_cons. done.
Qed.

Lemma drop_repeats_sorted l :
  StronglySorted Z.le l → StronglySorted Z.lt (drop_repeats l).
Proof.
  induction 1 as [|y l Hl IH Hy]; [constructor|].
  rewrite drop_repeats_cons. destruct l as [|z l]; [repeat constructor|].
  destruct (Z.eqb_spec y z) as [->|Hne]; [done|].
  constructor; [done|].
  apply Forall_forall. intros x Hx. apply (proj1 (elem_of_drop_repeats _ _)) in Hx.
  rewrite Forall_forall in Hy. pose proof (Hy _ Hx) as Hyx.
  apply elem_of_cons in Hx as [->|Hx].
  - lia.
  - apply StronglySorted_inv in Hl as [_ Hz]. rewrite Forall_forall in Hz.
    specialize (Hz _ Hx). specialize (Hy z (list_elem_of_here _ _)). lia.
Qed.

Lemma StronglySorted_lt_le l : StronglySorted Z.lt l → StronglySorted Z.le l.
Proof.
  induction 1 as [|x l _ IH Hx]; constructor; [done|].
  eapply Forall_impl; [done|]. simpl. lia.
Qed.

Lemma StronglySorted_lt_NoDup l : StronglySorted Z.lt l → NoDup l.
Proof.
  induction 1 as [|x l _ IH Hx]; constructor; [|done].
  intros Hin. rewrite Forall_forall in Hx. specialize (Hx _ Hin). lia.
Qed.

Lemma sorted_NoDup_lt l : Sorted Z.le l → NoDup l → StronglySorted Z.lt l.
Proof.
  intros Hs%(Sorted_StronglySorted Z.le) Hnd. induction Hs as [|x l _ IH Hx]; [constructor|].
  apply NoDup_cons in Hnd as [Hx' Hnd]. constructor; [by apply IH|].
  apply Forall_forall. intros y Hy. rewrite Forall_forall in Hx.
  specialize (Hx _ Hy). assert (x ≠ y) by (by intros ->). lia.
Qed.

Lemma distinct_sorted_lt l : StronglySorted Z.lt (distinct_sorted l).
Proof.
  apply sorted_NoDup_lt; [|apply NoDup_distinct_sorted].
  unfold distinct_sorted. apply Sorted_merge_sort; apply _.
Qed.

Lemma strictly_sorted_unique l1 l2 :
  StronglySorted Z.lt l1 → StronglySorted Z.lt l2 → (∀ x, x ∈ l1 ↔ x ∈ l2) → l1 = l2.
Proof.
  intros H1 H2 Heq.
  apply (Sorted_unique Z.le);
    [by apply StronglySorted_Sorted, StronglySorted_lt_le..|].
  apply NoDup_Permutation; auto using StronglySorted_lt_NoDup.
Qed.

Lemma np_sort_np_unique l : np_sort (np_unique l) = distinct_sorted l.
Proof.
  assert (StronglySorted Z.lt (np_unique l)) as Hu.
  { apply drop_repeats_sorted, StronglySorted_merge_sort; apply _. }
  assert (np_sort (np_unique l) = np_unique l) as ->.
  { apply (Sorted_unique Z.le).
    - apply Sorted_merge_sort; apply _.
    - by apply StronglySorted_Sorted, StronglySorted_lt_le.
    - apply merge_sort_Permutation. }
  apply strictly_sorted_unique; [done|apply distinct_sorted_lt|].
  intros x. unfold np_unique, np_sort.
  by rewrite elem_of_drop_repeats, merge_sort_Permutation, elem_of_distinct_sorted.
Qed.

(** ** The consensus *)


Lemma wrap_int32_small x : int32 x → wrap_int32 x = x.
Proof. intros [Hlo Hhi]. unfold wrap_int32. rewrite Z.mod_small by lia. lia. Qed.


Lemma tf_constant_int32_int64 x : int64 x → tf_constant_int32 x = Ok [wrap_int32 x].
Proof.
  intros [Hlo Hhi]. unfold tf_constant_int32.
  destruct (Z.leb_spec (- 2 ^ 63) x); [|lia]. destruct (Z.ltb_spec x (2 ^ 63)); [done|lia].
Qed.

Lemma tf_constant_int32_Ok x : int32 x → tf_constant_int32 x = Ok [x].
Proof.
  intros Hx. rewrite tf_constant_int32_int64, wrap_int32_small; [done..|].
  unfold int32, int64 in *. lia.
Qed.

Lemma tf_constant_int32_Raise x : ¬ int64 x → tf_constant_int32 x = Raise ValueError.
Proof.
  intros Hx. unfold tf_constant_int32, int64 in *.
  destruct (Z.leb_spec (- 2 ^ 63) x); [|done]. destruct (Z.ltb_spec x (2 ^ 63)); [lia|done].
Qed.

Lemma gather_concat (f : nat → Z) (l : list nat) :
  concat (map (λ i, [f i]) l) = map f l.
Proof. induction l as [|i l IH]; simpl; [done|]. by rewrite IH. Qed.


Lemma pack_relayout peers c n x :
  ∃ packed,
    dtensor_pack [[x]] {| sharding_specs := [Sharded "clients"];
                          layout_mesh := client_mesh_of c n |} = Ok packed ∧
    relayout_unsharded peers c packed = gathered peers c n x.
Proof.
  eexists. split; [reflexivity|]. unfold relayout_unsharded, gathered. simpl.
  rewrite Z.mul_1_l, Nat2Z.id, <-gather_concat.
  f_equal. apply map_ext. intros i. by destruct (Nat.eqb i c).
Qed.

Lemma unique_across_clients_component peers x y p :
  wf_process p → tf_constant_int32 x = Ok [y] →
  ∃ p', unique_across_clients peers x p
          = Ok (distinct_sorted (gathered peers (client_id p) (num_clients p) y), p') ∧
        client_id p' = client_id p ∧ num_clients p' = num_clients p ∧
        wf_process p' ∧
        match client_mesh p with
        | Some m => p' = p
        | None =>
            p' = set_mesh p (next_object p, client_mesh_of (client_id p) (num_clients p))
                   (S (next_object p))
                   (trace p ++ [EvCreateMesh (next_object p)
                                  [("clients"%string, Z.of_nat (num_clients p))]])
        end.
Proof.
  intros [Hid Hcache] Hx.
  destruct (pack_relayout peers (client_id p) (num_clients p) y) as (packed & Hpack & Hrel).
  simpl in Hpack. injection Hpack as <-.
  unfold unique_across_clients, bindM.
  destruct (client_mesh p) as [m|] eqn:Hm.
  - exists p. unfold retM, liftM. rewrite Hx.
    rewrite (Hcache m eq_refl). simpl.
    match goal with
    | |- context [relayout_unsharded ?a ?b ?c] =>
        replace (relayout_unsharded a b c)
          with (gathered peers (client_id p) (num_clients p) y) by (symmetry; exact Hrel)
    end.
    rewrite np_sort_np_unique. split_and!; try done. split; [done|]. by rewrite Hm.
  - eexists. unfold create_client_mesh, set_client_mesh, retM, liftM. simpl.
    rewrite Z.mul_1_r, Z.eqb_refl. simpl.
    rewrite Hx. simpl.
    match goal with
    | |- context [relayout_unsharded ?a ?b ?c] =>
        replace (relayout_unsharded a b c)
          with (gathered peers (client_id p) (num_clients p) y) by (symmetry; exact Hrel)
    end.
    rewrite np_sort_np_unique.
    split_and!; try done. split; [done|]. simpl. by intros m [= <-].
Qed.

Lemma unique_across_clients_Ok peers x p :
  wf_process p → int32 x →
  ∃ p', unique_across_clients peers x p
          = Ok (distinct_sorted (gathered peers (client_id p) (num_clients p) x), p') ∧
        client_id p' = client_id p ∧ num_clients p' = num_clients p ∧
        wf_process p' ∧
        match client_mesh p with
        | Some m => p' = p
        | None =>
            p' = set_mesh p (next_object p, client_mesh_of (client_id p) (num_clients p))
                   (S (next_object p))
                   (trace p ++ [EvCreateMesh (next_object p)
                                  [("clients"%string, Z.of_nat (num_clients p))]])
        end.
Proof.
  intros Hwf Hx. apply unique_across_clients_component; [done|].
  by apply tf_constant_int32_Ok.
Qed.

Lemma unique_across_clients_Raise peers x p :
  wf_process p → ¬ int64 x → unique_across_clients peers x p = Raise ValueError.
Proof.
  intros [Hid Hcache] Hx. unfold unique_across_clients, bindM.
  destruct (client_mesh p) as [m|] eqn:Hm.
  - unfold retM, liftM. by rewrite tf_constant_int32_Raise.
  - unfold create_client_mesh, set_client_mesh, retM, liftM. simpl.
    rewrite Z.mul_1_r, Z.eqb_refl. simpl. by rewrite tf_constant_int32_Raise.
Qed.

(** ** The claims on the sharding packer *)

Lemma component_at_slice {A} `{Rows A} mesh d (dt : DTensor A) (slices : list (list A)) k r :
  Forall (λ entry : gmap string Z, is_Some (entry !! d)) (local_device_locations mesh) →
  (∀ i (entry : gmap string Z) c k,
     local_device_locations mesh !! i = Some entry → entry !! d = Some c →
     distinct_sorted (batch_coords d mesh) !! k = Some c →
     dt_components dt !! i = slices !! k) →
  distinct_sorted (batch_coords d mesh) !! k = Some r →
  component_at d mesh dt r = slices !! k.
Proof.
  intros Hcoord Hcomp Hk. unfold component_at.
  assert (r ∈ batch_coords d mesh) as Hr.
  { apply elem_of_distinct_sorted, list_elem_of_lookup. eauto. }
  apply list_elem_of_lookup in Hr as [i Hi].
  destruct (Forall2_lookup_r _ _ _ _ _ (batch_coords_complete d mesh Hcoord) Hi)
    as (entry & Hentry & Hc).
  destruct (list_find_elem_of (λ e : gmap string Z, e !! d = Some r)
              (local_device_locations mesh) entry) as [[j e] Hfind];
    [apply list_elem_of_lookup; eauto|done|].
  rewrite Hfind. simpl. apply list_find_Some in Hfind as (Hj & He & _). eauto.
Qed.

(** C1: for a batch whose extent along axis 0 is a multiple of the number R
    of distinct batch coordinates of the client's local devices, [shard_data]
    returns a distributed tensor whose components, taken once per replica in
    the order of the coordinates and put one after the other, are the batch
    again; and two local devices with the same batch coordinate hold the same
    component. *)
Theorem shard_data_roundtrip {A} `{Rows A} (mesh : Mesh) (batch_dim : string)
    (tensor : list A) :
  wf_mesh mesh = true →
  is_Some (assoc batch_dim (dims mesh)) →
  (replica_count batch_dim mesh | length tensor)%nat →
  ∃ dt, shard_data mesh batch_dim tensor = Ok dt ∧
    reassemble batch_dim mesh dt = Some tensor ∧
    ∀ i j (ei ej : gmap string Z),
      local_device_locations mesh !! i = Some ei →
      local_device_locations mesh !! j = Some ej →
      ei !! batch_dim = ej !! batch_dim →
      ∃ component, dt_components dt !! i = Some component ∧
                   dt_components dt !! j = Some component.
Proof.
  intros Hwf [n Hn] Hdiv.
  destruct (shard_data_spec mesh batch_dim n tensor Hwf Hn Hdiv)
    as (dt & Hdt & _ & Hlen & Hcomp & _).
  assert (is_Some (assoc batch_dim (dims mesh))) as Hsome by eauto.
  pose proof (wf_mesh_has_coordinate _ _ Hwf Hsome) as Hcoord.
  pose proof (replica_count_pos _ _ Hwf Hsome) as HR.
  set (R := replica_count batch_dim mesh) in *.
  set (slices := chunks (length tensor `div` R)%nat R tensor) in *.
  exists dt. split_and!; [done| |].
  - unfold reassemble.
    assert (mapM (component_at batch_dim mesh dt)
              (distinct_sorted (batch_coords batch_dim mesh)) = Some slices) as ->.
    { apply mapM_Some, Forall2_same_length_lookup. split.
      - unfold slices. by rewrite length_chunks, length_distinct_sorted.
      - intros k r s Hk Hs. by rewrite (component_at_slice mesh batch_dim dt slices k r). }
    simpl. f_equal. apply concat_chunks.
    destruct Hdiv as [q Hq]. fold R in Hq. rewrite Hq, Nat.div_mul by done. lia.
  - intros i j ei ej Hi Hj Heq.
    rewrite Forall_forall in Hcoord.
    destruct (Hcoord ei) as [c Hc]; [apply list_elem_of_lookup; eauto|].
    assert (c ∈ distinct_sorted (batch_coords batch_dim mesh)) as Hin.
    { apply elem_of_distinct_sorted.
      assert (Forall (λ entry : gmap string Z, is_Some (entry !! batch_dim))
                (local_device_locations mesh)) as Hall by (by apply Forall_forall).
      destruct (Forall2_lookup_l _ _ _ _ _ (batch_coords_complete batch_dim mesh Hall) Hi)
        as (c' & Hc' & Hec').
      apply list_elem_of_lookup. exists i. congruence. }
    apply list_elem_of_lookup in Hin as [k Hk].
    assert (is_Some (slices !! k)) as [s Hs].
    { apply lookup_lt_is_Some. unfold slices. rewrite length_chunks.
      apply lookup_lt_Some in Hk. by rewrite length_distinct_sorted in Hk. }
    exists s. split.
    + by rewrite (Hcomp i ei c k).
    + rewrite (Hcomp j ej c k); [done..|congruence|done].
Qed.

Lemma shard_data_roundtrip_witness :
  ∃ dt, shard_data client_A BATCH_DIM [1; 2; 3; 4; 5; 6] = Ok dt ∧
    reassemble BATCH_DIM client_A dt = Some [1; 2; 3; 4; 5; 6] ∧
    ∀ i j (ei ej : gmap string Z),
      local_device_locations client_A !! i = Some ei →
      local_device_locations client_A !! j = Some ej →
      ei !! BATCH_DIM = ej !! BATCH_DIM →
      ∃ component, dt_components dt !! i = Some component ∧
                   dt_components dt !! j = Some component.
Proof.
  apply (shard_data_roundtrip client_A BATCH_DIM [1; 2; 3; 4; 5; 6]).
  - reflexivity.
  - exists 4. reflexivity.
  - exists 3%nat. reflexivity.
Defined.



(** ** The claims on the consensus *)

Lemma gathered_round xs c x :
  xs !! c = Some x → gathered (round_peers xs) c (length xs) x = xs.
Proof.
  intros Hc. apply list_eq. intros i. unfold gathered.
  rewrite list_lookup_fmap.
  destruct (decide (i < length xs)%nat) as [Hi|Hi].
  - rewrite lookup_seq_lt by done. simpl.
    destruct (Nat.eqb_spec i c) as [->|_]; [done|].
    unfold round_peers. destruct (lookup_lt_is_Some_2 xs i Hi) as [y ->]. done.
  - rewrite lookup_seq_ge by lia. rewrite lookup_ge_None_2 by lia. done.
Qed.

(** C4, as the code has it: in a round in which every client submits a
    value that fits 32 signed bits, every client receives the same list, the
    distinct values submitted in ascending order. *)
Theorem unique_across_clients_consensus (xs : list Z) :
  Forall int32 xs →
  ∃ l, StronglySorted Z.lt l ∧ (∀ v, v ∈ l ↔ v ∈ xs) ∧
    ∀ c x p,
      xs !! c = Some x → wf_process p →
      client_id p = c → num_clients p = length xs →
      ∃ p', unique_across_clients (round_peers xs) x p = Ok (l, p').
Proof.
  intros Hxs. exists (distinct_sorted xs).
  split_and!; [apply distinct_sorted_lt|apply elem_of_distinct_sorted|].
  intros c x p Hc Hwf Hid Hn.
  assert (int32 x) as Hx.
  { rewrite Forall_forall in Hxs. apply Hxs, list_elem_of_lookup. eauto. }
  destruct (unique_across_clients_Ok (round_peers xs) x p Hwf Hx) as (p' & Hp' & _).
  exists p'. by rewrite Hp', Hid, Hn, gathered_round.
Qed.

Lemma unique_across_clients_consensus_witness :
  ∃ l, StronglySorted Z.lt l ∧ (∀ v, v ∈ l ↔ v ∈ [2; 0; 2]) ∧
    ∀ c x p,
      [2; 0; 2] !! c = Some x → wf_process p →
      client_id p = c → num_clients p = length [2; 0; 2] →
      ∃ p', unique_across_clients (round_peers [2; 0; 2]) x p = Ok (l, p').
Proof.
  apply (unique_across_clients_consensus [2; 0; 2]).
  repeat constructor; unfold int32; lia.
Defined.

(** C4, as it is stated, fails for an integer that does not fit 32 signed
    bits: the only client of a run submits 2^31 and receives a list that
    holds -2^31 and not the value submitted. *)
Lemma unique_across_clients_wraps_wide_integer :
  ∃ l p',
    unique_across_clients (round_peers [2 ^ 31]) (2 ^ 31) (start_process 0 1) = Ok (l, p') ∧
    l = [- 2 ^ 31] ∧ 2 ^ 31 ∉ l.
Proof.
  eexists _, _. split_and!; [vm_compute; reflexivity|reflexivity|].
  intros Hin. apply list_elem_of_singleton in Hin. discriminate Hin.
Qed.

(** ** The claims on the input partitioner *)

Lemma foldl_min_spec (x : Z) (rest : list Z) :
  let m := foldl (λ m y, if Z.ltb y m then y else m) x rest in
  m ∈ x :: rest ∧ ∀ y, y ∈ x :: rest → m ≤ y.
Proof.
  revert x. induction rest as [|z rest IH]; intros x; simpl.
  - split; [left|]. intros y ->%list_elem_of_singleton. lia.
  - destruct (IH (if Z.ltb z x then z else x)) as [Hin Hle]. split.
    + apply elem_of_cons in Hin as [->|Hin].
      * destruct (Z.ltb z x); [right; left|left].
      * by do 2 right.
    + intros y Hy.
      assert (foldl (λ m y, if Z.ltb y m then y else m) (if Z.ltb z x then z else x) rest
              ≤ (if Z.ltb z x then z else x)) as Hm by (apply Hle; left).
      apply elem_of_cons in Hy as [Hy|Hy].
      * destruct (Z.ltb_spec z x); lia.
      * apply elem_of_cons in Hy as [Hy|Hy].
        -- destruct (Z.ltb_spec z x); lia.
        -- apply Hle. by right.
Qed.

Lemma py_min_spec (l : list Z) :
  l ≠ [] →
  ∃ m, py_min (list_to_set l) = Ok m ∧ m ∈ l ∧ ∀ y, y ∈ l → m ≤ y.
Proof.
  intros Hl. unfold py_min.
  destruct (elements (list_to_set (C:=gset Z) l)) as [|x rest] eqn:Hel.
  - apply elements_empty_inv in Hel. destruct l as [|y l]; [done|]. set_solver.
  - destruct (foldl_min_spec x rest) as [Hin Hle]. eexists. split; [done|].
    rewrite <-Hel in Hin, Hle. split.
    + apply elem_of_elements in Hin. by apply elem_of_list_to_set in Hin.
    + intros y Hy. apply Hle, elem_of_elements, elem_of_list_to_set, Hy.
Qed.

Lemma list_min_spec (l : list Z) m :
  m ∈ l → (∀ y, y ∈ l → m ≤ y) → list_min l = Some m.
Proof.
  destruct l as [|x rest]; [by intros ?%elem_of_nil|]. simpl. intros Hin Hle. f_equal.
  assert (foldr Z.min x rest ∈ x :: rest ∧ ∀ y, y ∈ x :: rest → foldr Z.min x rest ≤ y)
    as [Hin' Hle'].
  { clear. induction rest as [|z rest [IHin IHle]]; simpl.
    - split; [left|]. intros y ->%list_elem_of_singleton. lia.
    - split.
      + destruct (Z.min_spec z (foldr Z.min x rest)) as [[_ ->]|[_ ->]]; [right; left|].
        apply elem_of_cons in IHin as [->|?]; [left|by do 2 right].
      + intros y Hy. apply elem_of_cons in Hy as [->|Hy].
        * transitivity (foldr Z.min x rest); [lia|]. apply IHle. left.
        * apply elem_of_cons in Hy as [->|Hy]; [lia|].
          transitivity (foldr Z.min x rest); [lia|]. apply IHle. by right. }
  specialize (Hle _ Hin'). specialize (Hle' _ Hin). lia.
Qed.

Lemma index_lookup (x : Z) (l : list Z) k :
  NoDup l → l !! k = Some x → index x l = Ok k.
Proof.
  intros Hnd. revert k. induction Hnd as [|y l Hy _ IH]; intros k Hk; [done|].
  simpl. destruct k as [|k]; simpl in Hk.
  - injection Hk as ->. by rewrite Z.eqb_refl.
  - destruct (Z.eqb_spec y x) as [->|_].
    + destruct Hy. apply list_elem_of_lookup. eauto.
    + by rewrite (IH k).
Qed.

Lemma batch_coords_nonempty mesh :
  wf_mesh mesh = true → is_Some (assoc BATCH_DIM (dims mesh)) →
  batch_coords BATCH_DIM mesh ≠ [].
Proof.
  intros Hwf Hd Hnil. apply (replica_count_pos BATCH_DIM mesh Hwf Hd).
  unfold replica_count. by rewrite Hnil.
Qed.

Lemma batch_coords_range mesh n c :
  wf_mesh mesh = true → assoc BATCH_DIM (dims mesh) = Some n →
  c ∈ batch_coords BATCH_DIM mesh → 0 ≤ c < n ∧ n < 2 ^ 31.
Proof.
  intros Hwf Hn Hc. apply list_elem_of_lookup in Hc as [i Hi].
  assert (is_Some (assoc BATCH_DIM (dims mesh))) as Hsome by eauto.
  destruct (Forall2_lookup_r _ _ _ _ _
              (batch_coords_complete BATCH_DIM mesh
                 (wf_mesh_has_coordinate _ _ Hwf Hsome)) Hi) as (entry & Hentry & Hec).
  destruct (wf_mesh_coordinate mesh entry BATCH_DIM n Hwf) as (c' & Hc' & Hrange);
    [apply list_elem_of_lookup; eauto|done|].
  by simplify_eq.
Qed.

(** What [get_pipeline_params] returns on a well-formed client. *)
Lemma get_pipeline_params_Ok peers mesh p :
  wf_mesh mesh = true → is_Some (assoc BATCH_DIM (dims mesh)) → wf_process p →
  let rep := representative mesh in
  let first_replicas :=
    distinct_sorted (gathered peers (client_id p) (num_clients p) rep) in
  ∃ k p',
    rep ∈ batch_coords BATCH_DIM mesh ∧
    (∀ c, c ∈ batch_coords BATCH_DIM mesh → rep ≤ c) ∧
    unique_across_clients peers rep p = Ok (first_replicas, p') ∧
    first_replicas !! k = Some rep ∧
    get_pipeline_params peers mesh p =
      Ok ({| input_pipeline_id := k;
             num_input_pipelines := length first_replicas;
             num_local_replicas_in_sync := replica_count BATCH_DIM mesh |}, p').
Proof.
  intros Hwf Hd Hp rep first_replicas.
  destruct (py_min_spec (batch_coords BATCH_DIM mesh) (batch_coords_nonempty _ Hwf Hd))
    as (m & Hmin & Hin & Hle).
  assert (rep = m) as Hrep.
  { unfold rep, representative. by rewrite (list_min_spec _ m). }
  assert (int32 rep) as Hint.
  { destruct Hd as [n Hn]. rewrite Hrep.
    destruct (batch_coords_range mesh n m Hwf Hn Hin). unfold int32. lia. }
  destruct (unique_across_clients_Ok peers rep p Hp Hint) as (p' & Hrun & _).
  fold first_replicas in Hrun.
  assert (rep ∈ first_replicas) as Hmem.
  { apply elem_of_distinct_sorted. unfold gathered.
    apply list_elem_of_fmap. exists (client_id p). rewrite Nat.eqb_refl. split; [done|].
    apply elem_of_seq. destruct Hp. lia. }
  apply list_elem_of_lookup in Hmem as [k Hk].
  exists k, p'. rewrite Hrep in *. split_and!; [done..|].
  unfold get_pipeline_params, bindM, liftM, retM.
  rewrite collect_replicas_Ok
    by (apply wf_mesh_has_coordinate; done).
  rewrite (left_id_L ∅ (∪)). fold (batch_coords BATCH_DIM mesh).
  rewrite Hmin, Hrun.
  rewrite (index_lookup m first_replicas k) by (done || apply NoDup_distinct_sorted).
  do 3 f_equal.
  by rewrite size_list_to_set_distinct, length_distinct_sorted.
Qed.

(** C3: [get_pipeline_params] takes the least batch coordinate of the
    client's local devices as the representative, asks the consensus for the
    sorted list of the representatives, and returns the position of its own
    representative in that list, the length of the list, and the number of
    distinct batch coordinates the client owns. *)
Theorem get_pipeline_params_spec (peers : nat → Z) (mesh : Mesh) (p : Process) :
  wf_mesh mesh = true →
  is_Some (assoc BATCH_DIM (dims mesh)) →
  wf_process p →
  ∃ rep first_replicas pp p',
    (rep ∈ batch_coords BATCH_DIM mesh ∧
     ∀ c, c ∈ batch_coords BATCH_DIM mesh → rep ≤ c) ∧
    (unique_across_clients peers rep p = Ok (first_replicas, p') ∧
     StronglySorted Z.lt first_replicas) ∧
    get_pipeline_params peers mesh p = Ok (pp, p') ∧
    first_replicas !! input_pipeline_id pp = Some rep ∧
    num_input_pipelines pp = length first_replicas ∧
    num_local_replicas_in_sync pp = length (remove_dups (batch_coords BATCH_DIM mesh)).
Proof.
  intros Hwf Hd Hp.
  destruct (get_pipeline_params_Ok peers mesh p Hwf Hd Hp)
    as (k & p' & Hin & Hle & Hrun & Hk & Hget).
  eexists _, _, _, p'. split_and!; [done|done|exact Hrun| |exact Hget|done..].
  apply distinct_sorted_lt.
Qed.

Lemma get_pipeline_params_spec_witness :
  ∃ rep first_replicas pp p',
    (rep ∈ batch_coords BATCH_DIM client_B ∧
     ∀ c, c ∈ batch_coords BATCH_DIM client_B → rep ≤ c) ∧
    (unique_across_clients (round_peers [0; 2]) rep (start_process 1 2)
       = Ok (first_replicas, p') ∧
     StronglySorted Z.lt first_replicas) ∧
    get_pipeline_params (round_peers [0; 2]) client_B (start_process 1 2) = Ok (pp, p') ∧
    first_replicas !! input_pipeline_id pp = Some rep ∧
    num_input_pipelines pp = length first_replicas ∧
    num_local_replicas_in_sync pp = length (remove_dups (batch_coords BATCH_DIM client_B)).
Proof.
  apply (get_pipeline_params_spec (round_peers [0; 2]) client_B (start_process 1 2)).
  - reflexivity.
  - exists 4. reflexivity.
  - split; [simpl; lia|]. intros m Hm. discriminate Hm.
Defined.

Lemma position_lookup (l : list Z) k x :
  NoDup l → l !! k = Some x → position l x = k.
Proof. intros Hnd Hk. unfold position. by rewrite (index_lookup x l k). Qed.

Lemma position_enumerates (l : list Z) :
  NoDup l → position l <$> l = seq 0 (length l).
Proof.
  intros Hnd. apply list_eq. intros k. rewrite list_lookup_fmap.
  destruct (l !! k) as [x|] eqn:Hk; simpl.
  - rewrite (position_lookup l k x) by done.
    symmetry. apply lookup_seq. split; [done|]. by eapply lookup_lt_Some.
  - symmetry. apply lookup_seq_ge. by apply lookup_ge_None.
Qed.

Lemma distinct_sorted_NoDup_Permutation (l : list Z) :
  NoDup l → distinct_sorted l ≡ₚ l.
Proof.
  intros Hnd. apply NoDup_Permutation; [apply NoDup_distinct_sorted|done|].
  apply elem_of_distinct_sorted.
Qed.

(** C2: when the representatives of the clients are pairwise distinct, the
    pipeline ids [get_pipeline_params] returns at the clients are the numbers
    below the number of pipelines, each once, and every client gets the same
    number of pipelines. *)
Theorem get_pipeline_params_permutation (cluster : list Mesh) (ps : list Process) :
  Forall (λ mesh, wf_mesh mesh = true ∧ is_Some (assoc BATCH_DIM (dims mesh))) cluster →
  length ps = length cluster →
  (∀ c p, ps !! c = Some p →
          wf_process p ∧ client_id p = c ∧ num_clients p = length cluster) →
  NoDup (representative <$> cluster) →
  ∃ (pps : list PipelineParams) (count : nat),
    Forall2 (λ mp pp,
               ∃ p', get_pipeline_params (round_peers (representative <$> cluster))
                       mp.1 mp.2 = Ok (pp, p'))
            (zip cluster ps) pps ∧
    input_pipeline_id <$> pps ≡ₚ seq 0 count ∧
    Forall (λ pp, num_input_pipelines pp = count) pps.
Proof.
  intros Hwf Hlen Hps Hnd.
  set (reps := representative <$> cluster) in *.
  set (S := distinct_sorted reps).
  assert (length reps = length cluster) as Hreps by (unfold reps; by rewrite length_fmap).
  assert (length S = length cluster) as HS.
  { unfold S. by rewrite (distinct_sorted_NoDup_Permutation reps Hnd). }
  exists ((λ mesh, {| input_pipeline_id := position S (representative mesh);
                      num_input_pipelines := length S;
                      num_local_replicas_in_sync := replica_count BATCH_DIM mesh |})
            <$> cluster), (length cluster).
  split_and!.
  - apply Forall2_same_length_lookup. split.
    { rewrite length_zip_with, length_fmap. lia. }
    intros c [mesh p] pp Hzip Hpp. simpl.
    apply lookup_zip_with_Some in Hzip as (mesh' & p'' & [= <- <-] & Hmesh & Hp).
    rewrite list_lookup_fmap, Hmesh in Hpp. simpl in Hpp. injection Hpp as <-.
    destruct (Hps c p Hp) as (Hwfp & Hid & Hn).
    rewrite Forall_forall in Hwf.
    destruct (Hwf mesh) as [Hwfm Hdim]; [apply list_elem_of_lookup; eauto|].
    destruct (get_pipeline_params_Ok (round_peers reps) mesh p Hwfm Hdim Hwfp)
      as (k & p' & _ & _ & _ & Hk & Hget).
    assert (reps !! c = Some (representative mesh)) as Hrep
      by (unfold reps; by rewrite list_lookup_fmap, Hmesh).
    rewrite Hid, Hn, <-Hreps, gathered_round in Hk, Hget by done.
    fold S in Hk, Hget. exists p'. rewrite Hget.
    by rewrite (position_lookup S k (representative mesh))
      by (done || apply NoDup_distinct_sorted).
  - rewrite <-list_fmap_compose.
    change (input_pipeline_id ∘ _) with (position S ∘ representative).
    rewrite list_fmap_compose. fold reps.
    rewrite <-(distinct_sorted_NoDup_Permutation reps Hnd). fold S.
    by rewrite position_enumerates, HS by apply NoDup_distinct_sorted.
  - apply Forall_fmap, Forall_forall. intros mesh _. simpl. done.
Qed.

Lemma get_pipeline_params_permutation_witness :
  ∃ (pps : list PipelineParams) (count : nat),
    Forall2 (λ mp pp,
               ∃ p', get_pipeline_params
                       (round_peers (representative <$> [client_A; client_B]))
                       mp.1 mp.2 = Ok (pp, p'))
            (zip [client_A; client_B] [start_process 0 2; start_process 1 2]) pps ∧
    input_pipeline_id <$> pps ≡ₚ seq 0 count ∧
    Forall (λ pp, num_input_pipelines pp = count) pps.
Proof.
  apply (get_pipeline_params_permutation
           [client_A; client_B] [start_process 0 2; start_process 1 2]).
  - repeat constructor; by exists 4.
  - reflexivity.
  - intros [|[|c]] p Hp; simplify_eq/=;
      (split; [split; [simpl; lia|intros m Hm; discriminate Hm]|split; reflexivity]).
  - apply (bool_decide_unpack _). vm_compute. exact I.
Defined.

(** The scenario of the specification: the first client gets pipeline 0, the
    second pipeline 1, and both count 2 pipelines. *)
Example two_clients_scenario :
  let peers := round_peers (representative <$> [client_A; client_B]) in
  (fst <$> get_pipeline_params peers client_A (start_process 0 2)
   = Ok {| input_pipeline_id := 0; num_input_pipelines := 2;
           num_local_replicas_in_sync := 2 |}) ∧
  (fst <$> get_pipeline_params peers client_B (start_process 1 2)
   = Ok {| input_pipeline_id := 1; num_input_pipelines := 2;
           num_local_replicas_in_sync := 2 |}).
Proof. split; vm_compute; reflexivity. Qed.

(** ** The claim on the mesh of the clients *)

Lemma mesh_builds_app tr1 tr2 :
  mesh_builds (tr1 ++ tr2) = (mesh_builds tr1 + mesh_builds tr2)%nat.
Proof. unfold mesh_builds. by rewrite List.filter_app, length_app. Qed.

Lemma dprint_cache args p r p' : dprint args p = Ok (r, p') → cache_step false p p'.
Proof.
  unfold dprint, emit. intros [= _ <-]. simpl. split; [done|].
  rewrite mesh_builds_app. unfold mesh_builds. simpl. lia.
Qed.

Lemma rprint_cache args p r p' : rprint args p = Ok (r, p') → cache_step false p p'.
Proof.
  unfold rprint. destruct (Nat.eqb (client_id p) 0); [apply dprint_cache|].
  by intros [= _ <-].
Qed.

Lemma unique_across_clients_cache peers x p l p' :
  unique_across_clients peers x p = Ok (l, p') → cache_step true p p'.
Proof.
  unfold unique_across_clients, bindM, cache_step.
  destruct (client_mesh p) as [m|] eqn:Hm.
  - unfold retM at 1. unfold liftM.
    destruct (tf_constant_int32 x); [|done].
    destruct (dtensor_pack _ _); [|done]. unfold retM. by intros [= _ <-].
  - unfold create_client_mesh, set_client_mesh, retM, liftM.
    destruct (negb _); [done|]. simpl.
    destruct (tf_constant_int32 x); [|done]. simpl.
    intros [= _ <-]. simpl. eexists. split; [done|].
    rewrite mesh_builds_app. unfold mesh_builds. simpl. lia.
Qed.

Lemma get_pipeline_params_cache peers mesh p pp p' :
  get_pipeline_params peers mesh p = Ok (pp, p') → cache_step true p p'.
Proof.
  unfold get_pipeline_params, bindM, liftM.
  destruct (collect_replicas _ _ _); [|done].
  destruct (py_min _); [|done].
  destruct (unique_across_clients _ _ p) as [[l p1]|] eqn:Hrun; [|done].
  destruct (index _ _); [|done]. unfold retM. intros [= _ <-].
  by eapply unique_across_clients_cache.
Qed.

Lemma cache_step_then_print p p1 p2 :
  cache_step true p p1 → cache_step false p1 p2 → cache_step true p p2.
Proof.
  unfold cache_step. intros H1 [Hm Hb]. rewrite Hm, Hb. done.
Qed.

Lemma get_dataset_cache peers mesh p r p' :
  get_dataset peers mesh p = Ok (r, p') → cache_step true p p'.
Proof.
  unfold get_dataset, bindM.
  destruct (get_pipeline_params peers mesh p) as [[pp p1]|] eqn:Hpp; [|done].
  destruct (dprint _ p1) as [[[] p2]|] eqn:Hprint; [|done].
  unfold liftM, retM.
  destruct (synthetic_arrays _); [|done].
  destruct (dim_size _ _); [|done].
  destruct (floordiv _ _); [|done].
  destruct (Dataset_batch _ _); [|done].
  intros [= _ <-].
  eauto using cache_step_then_print, get_pipeline_params_cache, dprint_cache.
Qed.

Lemma perform_cache a p r p' :
  perform a p = Ok (r, p') → cache_step (calls_unique a) p p'.
Proof.
  destruct a as [args|args|peers x|peers mesh|peers mesh]; simpl.
  - apply dprint_cache.
  - apply rprint_cache.
  - unfold bindM, retM. destruct (unique_across_clients _ _ _) as [[l p1]|] eqn:Hrun; [|done].
    intros [= _ <-]. by eapply unique_across_clients_cache.
  - unfold bindM, retM. destruct (get_pipeline_params _ _ _) as [[l p1]|] eqn:Hrun; [|done].
    intros [= _ <-]. by eapply get_pipeline_params_cache.
  - unfold bindM, retM. destruct (get_dataset _ _ _) as [[l p1]|] eqn:Hrun; [|done].
    intros [= _ <-]. by eapply get_dataset_cache.
Qed.

(** Once the mesh is cached it stays, and nothing more is built. *)
Lemma perform_all_cached acts p states m :
  client_mesh p = Some m → perform_all acts p = Ok states →
  Forall (λ q, client_mesh q = Some m ∧ mesh_builds (trace q) = mesh_builds (trace p)) states.
Proof.
  revert p states. induction acts as [|a acts IH]; intros p states Hm; simpl.
  - intros [= <-]. constructor.
  - destruct (perform a p) as [[r p1]|] eqn:Hstep; [|done].
    destruct (perform_all acts p1) as [rest|] eqn:Hrest; [|done].
    intros [= <-]. apply perform_cache in Hstep.
    assert (client_mesh p1 = Some m ∧ mesh_builds (trace p1) = mesh_builds (trace p))
      as [Hm1 Hb1].
    { unfold cache_step in Hstep. destruct (calls_unique a); rewrite Hm in Hstep; done. }
    constructor; [done|].
    eapply Forall_impl; [by apply (IH p1 rest)|]. simpl. intros q [? ?]. split; congruence.
Qed.

(** C9: in a process that starts without a mesh of the clients, the mesh is
    built at most once; it is built by the first action that goes through
    [unique_across_clients], and from then on every state of the process
    holds that very mesh object. *)
Theorem client_mesh_singleton (acts : list action) (p0 : Process)
    (states : list Process) :
  client_mesh p0 = None →
  mesh_builds (trace p0) = 0%nat →
  perform_all acts p0 = Ok states →
  ∀ i p, states !! i = Some p →
    (mesh_builds (trace p) ≤ 1)%nat ∧
    (existsb calls_unique (take (S i) acts) = false →
       client_mesh p = None ∧ mesh_builds (trace p) = 0%nat) ∧
    (existsb calls_unique (take (S i) acts) = true →
       ∃ m, client_mesh p = Some m ∧ mesh_builds (trace p) = 1%nat ∧
            ∀ j q, (i ≤ j)%nat → states !! j = Some q → client_mesh q = Some m).
Proof.
  revert p0 states. induction acts as [|a acts IH]; intros p0 states Hnone Hzero; simpl.
  { intros [= <-] i p Hi. done. }
  destruct (perform a p0) as [[r p1]|] eqn:Hstep; [|done].
  destruct (perform_all acts p1) as [rest|] eqn:Hrest; [|done].
  intros [= <-] i p Hi. apply perform_cache in Hstep. unfold cache_step in Hstep.
  destruct (calls_unique a) eqn:Hcall.
  - rewrite Hnone, Hzero in Hstep. destruct Hstep as (m & Hm & Hb).
    pose proof (perform_all_cached acts p1 rest m Hm Hrest) as Hall.
    rewrite Forall_forall in Hall.
    assert (∀ j q, (p1 :: rest) !! j = Some q →
                   client_mesh q = Some m ∧ mesh_builds (trace q) = 1%nat) as Hstates.
    { intros [|j] q Hq; simpl in Hq; [by injection Hq as <-|].
      destruct (Hall q) as [? ?]; [apply list_elem_of_lookup; eauto|]. split; congruence. }
    destruct (Hstates i p Hi) as [Hmp Hbp].
    split_and!; [lia|done|]. intros _. exists m. split_and!; [done..|].
    intros j q _ Hq. by destruct (Hstates j q Hq).
  - destruct Hstep as [Hm Hb]. rewrite Hnone in Hm. rewrite Hzero in Hb.
    destruct i as [|i]; simpl in Hi.
    + injection Hi as <-. split_and!; [lia|done|simpl; done].
    + destruct (IH p1 rest Hm Hb Hrest i p Hi) as (Hle & Hno & Hyes).
      simpl. split_and!; [done|done|].
      intros Hex. destruct (Hyes Hex) as (m & Hmp & Hbp & Hlater).
      exists m. split_and!; [done..|].
      intros [|j] q Hj Hq; [lia|]. simpl in Hq. apply (Hlater j q); [lia|done].
Qed.

Lemma client_mesh_singleton_witness :
  let acts := [ActDprint ["start"%string];
               ActUnique (round_peers [0; 2]) 0;
               ActGetDataset (round_peers [0; 2]) client_A] in
  let states := match perform_all acts (start_process 0 2) with
                | Ok states => states
                | Raise _ => []
                end in
  let p := default (start_process 0 2) (states !! 1%nat) in
  (mesh_builds (trace p) ≤ 1)%nat ∧
  (existsb calls_unique (take 2 acts) = false →
     client_mesh p = None ∧ mesh_builds (trace p) = 0%nat) ∧
  (existsb calls_unique (take 2 acts) = true →
     ∃ m, client_mesh p = Some m ∧ mesh_builds (trace p) = 1%nat ∧
          ∀ j q, (1 ≤ j)%nat → states !! j = Some q → client_mesh q = Some m).
Proof.
  intros acts states p.
  apply (client_mesh_singleton acts (start_process 0 2) states).
  - reflexivity.
  - reflexivity.
  - vm_compute. reflexivity.
  - vm_compute. reflexivity.
Defined.

(** ** The dataset *)

Lemma synthetic_arrays_small (id : nat) :
  (id < 4)%nat → ∃ a, synthetic_arrays id = Ok a ∧ full_arrays a.
Proof.
  intros Hid.
  destruct id as [|[|[|[|id]]]]; [| | | |lia];
    (eexists; split; [vm_compute; reflexivity|repeat split]).
Qed.

Lemma strictly_sorted_length (l : list Z) (a b : Z) :
  StronglySorted Z.lt l → Forall (λ x, a ≤ x < b) l → a ≤ b →
  Z.of_nat (length l) ≤ b - a.
Proof.
  intros Hs. revert a. induction Hs as [|x l _ IH Hx]; intros a Hall Hab; simpl; [lia|].
  apply Forall_cons in Hall as [Hxa Hall].
  assert (Z.of_nat (length l) ≤ b - (x + 1)); [|lia].
  apply IH; [|lia]. apply Forall_forall. intros y Hy.
  rewrite Forall_forall in Hx, Hall. specialize (Hx _ Hy). specialize (Hall _ Hy). lia.
Qed.

Lemma mapM_result_Ok {A B} (f : A → result B) (l : list A) :
  Forall (λ x, ∃ y, f x = Ok y) l →
  ∃ r, mapM f l = Ok r ∧ length r = length l.
Proof.
  induction 1 as [|x l [y Hy] _ (r & Hr & Hlen)]; simpl.
  - by exists [].
  - exists (y :: r). rewrite Hy. simpl. rewrite Hr. simpl. by rewrite Hlen.
Qed.

Lemma repeated_rows_Ok {A} (rows : list A) (start n : nat) :
  rows ≠ [] → ∃ r, repeated_rows rows start n = Ok r ∧ length r = n.
Proof.
  intros Hrows. unfold repeated_rows.
  destruct (mapM_result_Ok
              (λ k, of_option StopIteration (rows !! ((start + k) `mod` length rows)%nat))
              (seq 0 n)) as (r & Hr & Hlen).
  - apply Forall_forall. intros k _.
    destruct (lookup_lt_is_Some_2 rows ((start + k) `mod` length rows)%nat) as [y Hy].
    + apply Nat.mod_upper_bound. by destruct rows.
    + exists y. by rewrite Hy.
  - exists r. by rewrite length_seq in Hlen.
Qed.

Lemma ds_next_Ok (ds : Dataset) (it : nat) :
  full_arrays (ds_arrays ds) →
  ∃ batch, ds_next ds it = Ok (batch, (it + ds_batch ds)%nat) ∧
    length (word_id_data batch) = ds_batch ds ∧ length (mask_data batch) = ds_batch ds ∧
    length (type_id_data batch) = ds_batch ds ∧ length (labels batch) = ds_batch ds.
Proof.
  intros (Hw & Hm & Ht & Hl). unfold ds_next.
  destruct (repeated_rows_Ok (word_id_data (ds_arrays ds)) it (ds_batch ds)) as (w & -> & ?);
    [by intros Hnil; rewrite Hnil in Hw|].
  destruct (repeated_rows_Ok (mask_data (ds_arrays ds)) it (ds_batch ds)) as (m & -> & ?);
    [by intros Hnil; rewrite Hnil in Hm|].
  destruct (repeated_rows_Ok (type_id_data (ds_arrays ds)) it (ds_batch ds)) as (t & -> & ?);
    [by intros Hnil; rewrite Hnil in Ht|].
  destruct (repeated_rows_Ok (labels (ds_arrays ds)) it (ds_batch ds)) as (l & -> & ?);
    [by intros Hnil; rewrite Hnil in Hl|].
  simpl. eexists. split; [done|]. done.
Qed.

Lemma gathered_range peers c n x lo hi :
  (∀ i, lo ≤ peers i < hi) → lo ≤ x < hi →
  Forall (λ y, lo ≤ y < hi) (gathered peers c n x).
Proof.
  intros Hpeers Hx. unfold gathered. apply Forall_fmap, Forall_forall. intros i _. simpl.
  destruct (Nat.eqb i c); auto.
Qed.

(** What [get_dataset] returns to a well-formed client of the 4 x 2 mesh
    whose peers submit batch coordinates of that mesh. *)
Lemma get_dataset_Ok peers mesh p :
  wf_mesh mesh = true → assoc BATCH_DIM (dims mesh) = Some 4 → wf_process p →
  (∀ i, 0 ≤ peers i < 4) →
  ∃ pp arrays p1 p',
    get_pipeline_params peers mesh p = Ok (pp, p1) ∧
    (input_pipeline_id pp < 4)%nat ∧
    num_local_replicas_in_sync pp = replica_count BATCH_DIM mesh ∧
    synthetic_arrays (input_pipeline_id pp) = Ok arrays ∧ full_arrays arrays ∧
    get_dataset peers mesh p =
      Ok (({| ds_arrays := arrays;
              ds_batch := Z.to_nat (8 * Z.of_nat (replica_count BATCH_DIM mesh)) |},
           (λ A R tensor, shard_data (A:=A) (H:=R) mesh BATCH_DIM tensor) : Packer), p').
Proof.
  intros Hwf Hd Hp Hpeers.
  assert (is_Some (assoc BATCH_DIM (dims mesh))) as Hsome by eauto.
  destruct (get_pipeline_params_Ok peers mesh p Hwf Hsome Hp)
    as (k & p1 & Hin & _ & _ & Hk & Hget).
  set (first_replicas :=
         distinct_sorted (gathered peers (client_id p) (num_clients p) (representative mesh)))
    in *.
  assert (k < 4)%nat as Hk4.
  { apply lookup_lt_Some in Hk.
    pose proof (strictly_sorted_length first_replicas 0 4 (distinct_sorted_lt _)) as Hlen.
    assert (Z.of_nat (length first_replicas) ≤ 4 - 0); [|lia].
    apply Hlen; [|lia]. apply Forall_forall. intros y Hy.
    unfold first_replicas in Hy. rewrite elem_of_distinct_sorted in Hy.
    assert (0 ≤ representative mesh < 4) as Hrep
      by (by destruct (batch_coords_range mesh 4 _ Hwf Hd Hin)).
    pose proof (gathered_range peers (client_id p) (num_clients p) (representative mesh) 0 4
                  Hpeers Hrep) as Hall.
    rewrite Forall_forall in Hall. by apply Hall. }
  destruct (synthetic_arrays_small k Hk4) as (arrays & Harrays & Hfull).
  pose proof (replica_count_pos BATCH_DIM mesh Hwf Hsome) as HR.
  eexists _, arrays, p1, _.
  split_and!; [exact Hget|exact Hk4|reflexivity|exact Harrays|exact Hfull|].
  unfold get_dataset, bindM. rewrite Hget. unfold dprint, emit, liftM, retM.
  cbn [input_pipeline_id num_local_replicas_in_sync].
  rewrite Harrays. unfold dim_size. rewrite Hd. cbn [of_option].
  assert (floordiv batch_size 4 = Ok 8) as -> by reflexivity.
  unfold Dataset_batch.
  destruct (Z.leb_spec (8 * Z.of_nat (replica_count BATCH_DIM mesh)) 0) as [Hle|_]; [lia|].
  reflexivity.
Qed.

(** C10: at a client of the 4 x 2 mesh whose number R of local replicas
    divides 4, every batch of the dataset has 8 R labels, [shard_data] splits
    them into R slices of 8, and the packed labels have the global extent 32
    along axis 0: the assertion of [train_model] holds. *)
Theorem packed_labels_extent (peers : nat → Z) (mesh : Mesh) (p : Process) :
  wf_mesh mesh = true →
  assoc BATCH_DIM (dims mesh) = Some 4 →
  (replica_count BATCH_DIM mesh | 4)%nat →
  wf_process p →
  (∀ i, 0 ≤ peers i < 4) →
  let R := replica_count BATCH_DIM mesh in
  ∃ dataset (pack_fn : Packer) p',
    get_dataset peers mesh p = Ok ((dataset, pack_fn), p') ∧
    ∀ it, ∃ batch it',
      ds_next dataset it = Ok (batch, it') ∧
      length (labels batch) = (Z.to_nat (batch_size `div` 4) * R)%nat ∧
      ∃ slices d_labels,
        shard_slices mesh BATCH_DIM (labels batch) = Ok slices ∧
        length slices = R ∧
        Forall (λ s, length s = Z.to_nat (batch_size `div` 4)) slices ∧
        pack_fn Z _ (labels batch) = Ok d_labels ∧
        dt_shape0 d_labels = batch_size.
Proof.
  intros Hwf Hd _ Hp Hpeers R.
  destruct (get_dataset_Ok peers mesh p Hwf Hd Hp Hpeers)
    as (pp & arrays & p1 & p' & _ & _ & _ & _ & Hfull & Hds).
  eexists _, _, p'. split; [exact Hds|]. intros it.
  destruct (ds_next_Ok {| ds_arrays := arrays; ds_batch := Z.to_nat (8 * Z.of_nat R) |}
              it Hfull) as (batch & Hnext & _ & _ & _ & Hlabels).
  cbn [ds_batch] in Hlabels, Hnext. rewrite Z2Nat.inj_mul, Nat2Z.id in Hlabels by lia.
  change (Z.to_nat 8) with 8%nat in Hlabels.
  eexists batch, _. split; [exact Hnext|].
  change (Z.to_nat (batch_size `div` 4)) with 8%nat. split; [done|].
  assert (is_Some (assoc BATCH_DIM (dims mesh))) as Hsome by eauto.
  pose proof (replica_count_pos BATCH_DIM mesh Hwf Hsome) as HR. fold R in HR.
  assert ((R | length (labels batch))%nat) as Hdiv by (exists 8%nat; lia).
  destruct (shard_data_spec mesh BATCH_DIM 4 (labels batch) Hwf Hd Hdiv)
    as (dt & Hdt & Hslices & _ & _ & Hshape).
  fold R in Hslices, Hshape.
  assert ((length (labels batch) `div` R)%nat = 8%nat) as Hq.
  { rewrite Hlabels. by apply Nat.div_mul. }
  rewrite Hq in Hslices, Hshape.
  exists (chunks 8 R (labels batch)), dt.
  split_and!; [done|apply length_chunks| |done|by rewrite Hshape].
  apply chunks_lengths. lia.
Qed.

Lemma packed_labels_extent_witness :
  let R := replica_count BATCH_DIM client_A in
  ∃ dataset (pack_fn : Packer) p',
    get_dataset (round_peers [0; 2]) client_A (start_process 0 2)
      = Ok ((dataset, pack_fn), p') ∧
    ∀ it, ∃ batch it',
      ds_next dataset it = Ok (batch, it') ∧
      length (labels batch) = (Z.to_nat (batch_size `div` 4) * R)%nat ∧
      ∃ slices d_labels,
        shard_slices client_A BATCH_DIM (labels batch) = Ok slices ∧
        length slices = R ∧
        Forall (λ s, length s = Z.to_nat (batch_size `div` 4)) slices ∧
        pack_fn Z _ (labels batch) = Ok d_labels ∧
        dt_shape0 d_labels = batch_size.
Proof.
  apply (packed_labels_extent (round_peers [0; 2]) client_A (start_process 0 2)).
  - reflexivity.
  - reflexivity.
  - exists 2%nat. reflexivity.
  - split; [simpl; lia|]. intros m Hm. discriminate Hm.
  - intros [|[|i]]; unfold round_peers; simpl; lia.
Defined.

(** ** The claim on the synthetic data *)

(** The generator agrees with NumPy on the first draws of seed 0. *)
Example randint_seed_0 :
  (rng ← RandomState 0; fst <$> randint 100 10 rng)
  = Ok [44; 47; 64; 67; 67; 9; 83; 21; 36; 87].
Proof. vm_compute. reflexivity. Qed.

Lemma synthetic_first_word_ids (id : nat) (a : Arrays) :
  (id < 4)%nat → synthetic_arrays id = Ok a →
  first_word_ids a =
    match id with
    | 0%nat => [44; 47; 64; 67; 67; 9; 83; 21; 36; 87]
    | 1%nat => [37; 12; 72; 9; 75; 5; 79; 64; 16; 1]
    | 2%nat => [40; 15; 72; 22; 43; 82; 75; 7; 34; 49]
    | _ => [24; 3; 56; 72; 0; 21; 19; 74; 41; 10]
    end.
Proof.
  intros Hid.
  destruct id as [|[|[|[|id]]]]; [| | | |lia];
    (vm_compute; intros [= <-]; reflexivity).
Qed.

Lemma synthetic_arrays_inj (i j : nat) (a : Arrays) :
  (i < 4)%nat → (j < 4)%nat →
  synthetic_arrays i = Ok a → synthetic_arrays j = Ok a → i = j.
Proof.
  intros Hi Hj Ha Hb.
  pose proof (synthetic_first_word_ids i a Hi Ha) as Hfi.
  pose proof (synthetic_first_word_ids j a Hj Hb) as Hfj.
  rewrite Hfi in Hfj. clear -Hi Hj Hfj.
  destruct i as [|[|[|[|i]]]]; [| | | |lia];
    (destruct j as [|[|[|[|j]]]]; [| | | |lia]); (reflexivity || discriminate Hfj).
Qed.

(** C6: the arrays a client generates are those of its pipeline id alone:
    two clients of the 4 x 2 mesh generate the same arrays exactly when
    their pipeline ids are equal. *)
Theorem synthetic_data_by_pipeline_id
    (peers1 peers2 : nat → Z) (mesh1 mesh2 : Mesh) (p1 p2 : Process) :
  wf_mesh mesh1 = true → assoc BATCH_DIM (dims mesh1) = Some 4 →
  wf_process p1 → (∀ i, 0 ≤ peers1 i < 4) →
  wf_mesh mesh2 = true → assoc BATCH_DIM (dims mesh2) = Some 4 →
  wf_process p2 → (∀ i, 0 ≤ peers2 i < 4) →
  ∃ pp1 pp2 q1 q2 ds1 ds2 (pack1 pack2 : Packer) p1' p2',
    get_pipeline_params peers1 mesh1 p1 = Ok (pp1, q1) ∧
    get_pipeline_params peers2 mesh2 p2 = Ok (pp2, q2) ∧
    get_dataset peers1 mesh1 p1 = Ok ((ds1, pack1), p1') ∧
    get_dataset peers2 mesh2 p2 = Ok ((ds2, pack2), p2') ∧
    synthetic_arrays (input_pipeline_id pp1) = Ok (ds_arrays ds1) ∧
    synthetic_arrays (input_pipeline_id pp2) = Ok (ds_arrays ds2) ∧
    (input_pipeline_id pp1 = input_pipeline_id pp2 ↔ ds_arrays ds1 = ds_arrays ds2).
Proof.
  intros Hwf1 Hd1 Hp1 Hpeers1 Hwf2 Hd2 Hp2 Hpeers2.
  destruct (get_dataset_Ok peers1 mesh1 p1 Hwf1 Hd1 Hp1 Hpeers1)
    as (pp1 & a1 & q1 & p1' & Hpp1 & Hid1 & _ & Ha1 & _ & Hds1).
  destruct (get_dataset_Ok peers2 mesh2 p2 Hwf2 Hd2 Hp2 Hpeers2)
    as (pp2 & a2 & q2 & p2' & Hpp2 & Hid2 & _ & Ha2 & _ & Hds2).
  eexists pp1, pp2, q1, q2, _, _, _, _, p1', p2'.
  split_and!; [exact Hpp1|exact Hpp2|exact Hds1|exact Hds2|exact Ha1|exact Ha2|].
  simpl. split.
  - intros Heq. rewrite Heq in Ha1. congruence.
  - intros <-. by apply (synthetic_arrays_inj _ _ a1).
Qed.

Lemma synthetic_data_by_pipeline_id_witness :
  ∃ pp1 pp2 q1 q2 ds1 ds2 (pack1 pack2 : Packer) p1' p2',
    get_pipeline_params (round_peers [0; 2]) client_A (start_process 0 2) = Ok (pp1, q1) ∧
    get_pipeline_params (round_peers [0; 2]) client_B (start_process 1 2) = Ok (pp2, q2) ∧
    get_dataset (round_peers [0; 2]) client_A (start_process 0 2) = Ok ((ds1, pack1), p1') ∧
    get_dataset (round_peers [0; 2]) client_B (start_process 1 2) = Ok ((ds2, pack2), p2') ∧
    synthetic_arrays (input_pipeline_id pp1) = Ok (ds_arrays ds1) ∧
    synthetic_arrays (input_pipeline_id pp2) = Ok (ds_arrays ds2) ∧
    (input_pipeline_id pp1 = input_pipeline_id pp2 ↔ ds_arrays ds1 = ds_arrays ds2).
Proof.
  apply (synthetic_data_by_pipeline_id
           (round_peers [0; 2]) (round_peers [0; 2]) client_A client_B
           (start_process 0 2) (start_process 1 2)).
  - reflexivity.
  - reflexivity.
  - split; [simpl; lia|]. intros m Hm. discriminate Hm.
  - intros [|[|i]]; unfold round_peers; simpl; lia.
  - reflexivity.
  - reflexivity.
  - split; [simpl; lia|]. intros m Hm. discriminate Hm.
  - intros [|[|i]]; unfold round_peers; simpl; lia.
Defined.

(** ** The claim on the training loop *)

Lemma add_trace_nil p : add_trace p [] = p.
Proof. destruct p. unfold add_trace. simpl. by rewrite app_nil_r. Qed.

Lemma add_trace_app p evs1 evs2 :
  add_trace (add_trace p evs1) evs2 = add_trace p (evs1 ++ evs2).
Proof. unfold add_trace. simpl. by rewrite app_assoc. Qed.

Lemma emit_add_trace e p : emit e p = Ok (tt, add_trace p [e]).
Proof. done. Qed.

Lemma rprint_add_trace args p :
  rprint args p = Ok (tt, add_trace p (rprint_events (client_id p) args)).
Proof.
  unfold rprint, rprint_events. destruct (Nat.eqb (client_id p) 0); [done|].
  by rewrite add_trace_nil.
Qed.

Lemma count_steps_app evs1 evs2 :
  count_steps (evs1 ++ evs2) = (count_steps evs1 + count_steps evs2)%nat.
Proof. unfold count_steps. by rewrite List.filter_app, length_app. Qed.

Lemma count_steps_replicate n : count_steps (replicate n EvTrainStep) = n.
Proof. induction n as [|n IH]; [done|]. unfold count_steps in *. simpl. by rewrite IH. Qed.

Lemma count_steps_rprint c args : count_steps (rprint_events c args) = 0%nat.
Proof. unfold rprint_events. by destruct (Nat.eqb c 0). Qed.

Lemma prints_app evs1 evs2 : prints (evs1 ++ evs2) = prints evs1 ++ prints evs2.
Proof. apply List.filter_app. Qed.

Lemma prints_replicate n : prints (replicate n EvTrainStep) = [].
Proof. induction n as [|n IH]; [done|]. done. Qed.

Lemma prints_rprint c args : prints (rprint_events c args) = rprint_events c args.
Proof. unfold rprint_events. by destruct (Nat.eqb c 0). Qed.

Section TrainProofs.

Context {W F : Type}.
Variable train_step :
  W → DTensor (list Z) * DTensor (list Z) * DTensor (list Z) → DTensor Z → W * F.
Variable fzero : F.
Variable fadd : F → F → F.
Variable fdiv : F → Z → F.
Variable reduce_mean : F → F.
Variable str_loss : F → string.
Variable dataset : Dataset.
Variable pack_fn : Packer.
Variable steps_per_epoch : Z.
Variable num_epochs : Z.

(** The loss of a step is a scalar, and the mean of a scalar is the scalar. *)
Hypothesis reduce_mean_scalar : ∀ x, reduce_mean x = x.

Local Abbreviation step' := (step train_step dataset pack_fn).
Local Abbreviation steps_losses' := (steps_losses train_step dataset pack_fn).
Local Abbreviation epoch_loss' := (epoch_loss fzero fadd fdiv steps_per_epoch).
Local Abbreviation epoch_events' := (epoch_events str_loss steps_per_epoch).
Local Abbreviation train_one' := (train_one train_step fadd dataset pack_fn).
Local Abbreviation train_steps' := (train_steps train_step fadd dataset pack_fn).
Local Abbreviation train_epochs' :=
  (train_epochs train_step fzero fadd fdiv reduce_mean str_loss dataset pack_fn
                steps_per_epoch).

Lemma train_one_step w it total p w' it' loss :
  step' w it = Ok (w', it', loss) →
  train_one' w it total p = Ok ((w', it', fadd total loss), add_trace p [EvTrainStep]).
Proof.
  unfold step, train_one, bindM, liftM.
  destruct (ds_next dataset it) as [batch|]; [|done]. simpl.
  destruct (pack_fn _ _ (word_id_data batch.1)) as [dw|]; [|done]. simpl.
  destruct (pack_fn _ _ (mask_data batch.1)) as [dm|]; [|done]. simpl.
  destruct (pack_fn _ _ (type_id_data batch.1)) as [dt|]; [|done]. simpl.
  destruct (pack_fn _ _ (labels batch.1)) as [dl|]; [|done]. simpl.
  destruct (Z.eqb (dt_shape0 dl) batch_size); [|done].
  destruct (train_step w (dw, dm, dt) dl) as [w1 l1]. simpl.
  intros [= <- <- <-]. done.
Qed.

Lemma train_steps_run n a w it total p w' it' ls :
  steps_losses' n w it = Ok (w', it', ls) →
  train_steps' (seq a n) w it total p
    = Ok ((w', it', foldl fadd total ls), add_trace p (replicate n EvTrainStep)).
Proof.
  revert a w it total p ls. induction n as [|n IH]; intros a w it total p ls; simpl.
  - intros [= <- <- <-]. unfold retM. by rewrite add_trace_nil.
  - destruct (step' w it) as [[[w1 it1] l1]|] eqn:Hstep; [|done]. simpl.
    destruct (steps_losses' n w1 it1) as [[[w2 it2] l2]|] eqn:Hrest; [|done]. simpl.
    intros [= <- <- <-]. unfold bindM.
    rewrite (train_one_step w it total p w1 it1 l1 Hstep). simpl.
    rewrite (IH (S a) w1 it1 (fadd total l1) _ l2 Hrest).
    by rewrite add_trace_app.
Qed.

Lemma steps_losses_app n m w it w2 it2 ls :
  steps_losses' (n + m) w it = Ok (w2, it2, ls) →
  ∃ w1 it1,
    steps_losses' n w it = Ok (w1, it1, take n ls) ∧
    steps_losses' m w1 it1 = Ok (w2, it2, drop n ls).
Proof.
  revert w it ls. induction n as [|n IH]; intros w it ls; simpl.
  - intros Hrun. by exists w, it.
  - destruct (step' w it) as [[[w1 it1] l1]|] eqn:Hstep; [|done]. simpl.
    destruct (steps_losses' (n + m) w1 it1) as [[[w3 it3] l3]|] eqn:Hrest; [|done]. simpl.
    intros [= <- <- <-].
    destruct (IH w1 it1 l3 Hrest) as (wa & ita & Ha & Hb).
    exists wa, ita. rewrite Ha. simpl. done.
Qed.

Lemma length_steps_losses n w it w' it' ls :
  steps_losses' n w it = Ok (w', it', ls) → length ls = n.
Proof.
  revert w it ls. induction n as [|n IH]; intros w it ls; simpl.
  - by intros [= <- <- <-].
  - destruct (step' w it) as [[[w1 it1] l1]|]; [|done]. simpl.
    destruct (steps_losses' n w1 it1) as [[[w2 it2] l2]|] eqn:Hrest; [|done]. simpl.
    intros [= <- <- <-]. simpl. f_equal. eauto.
Qed.

Lemma train_epochs_run n a w it acc p w' it' ls :
  steps_per_epoch ≠ 0 →
  steps_losses' (n * Z.to_nat steps_per_epoch) w it = Ok (w', it', ls) →
  let losses := map epoch_loss' (chunks (Z.to_nat steps_per_epoch) n ls) in
  train_epochs' (seq a n) w it acc p
    = Ok ((w', acc ++ losses),
          add_trace p (concat (zip_with (epoch_events' (client_id p)) (seq a n) losses))).
Proof.
  intros HS. revert a w it acc p ls.
  induction n as [|n IH]; intros a w it acc p ls; simpl.
  - intros [= <- <- <-]. unfold retM. by rewrite add_trace_nil, app_nil_r.
  - intros Hrun.
    destruct (steps_losses_app _ _ _ _ _ _ _ Hrun) as (w1 & it1 & Hfirst & Hrest).
    unfold bindM, range.
    rewrite (train_steps_run _ 0 w it fzero p w1 it1 _ Hfirst).
    unfold liftM. destruct (Z.eqb_spec steps_per_epoch 0) as [|_]; [done|].
    rewrite reduce_mean_scalar, rprint_add_trace, add_trace_app.
    rewrite (IH (S a) w1 it1 _ _ _ Hrest).
    rewrite add_trace_app. simpl.
    unfold epoch_events at 2. unfold epoch_loss at 3 4, epoch_report.
    by rewrite <-!app_assoc.
Qed.

Lemma count_steps_epochs c (es : list nat) (xs : list F) :
  length es = length xs →
  count_steps (concat (zip_with (epoch_events' c) es xs))
  = (length xs * Z.to_nat steps_per_epoch)%nat.
Proof.
  revert xs. induction es as [|e es IH]; intros [|x xs] Hl; simpl in *; try done.
  rewrite count_steps_app. unfold epoch_events at 1.
  rewrite count_steps_app, count_steps_replicate, count_steps_rprint, IH by lia. lia.
Qed.

Lemma prints_epochs c (es : list nat) (xs : list F) :
  prints (concat (zip_with (epoch_events' c) es xs))
  = concat (zip_with (λ epoch loss, rprint_events c (epoch_report str_loss epoch loss))
                     es xs).
Proof.
  revert xs. induction es as [|e es IH]; intros [|x xs]; simpl; try done.
  rewrite prints_app. unfold epoch_events at 1.
  by rewrite prints_app, prints_replicate, prints_rprint, IH.
Qed.

(** C7: [train_model] runs [num_epochs * steps_per_epoch] training steps;
    the loss of an epoch is the sum of the losses of its steps over
    [steps_per_epoch]; the losses of the epochs are returned in the order
    of the epochs; and the only prints are those of client 0, one at the
    start and one per epoch. *)
Theorem train_model_spec (w : W) (p : Process) (w' : W) (it' : nat) (ls : list F) :
  0 ≤ num_epochs →
  0 < steps_per_epoch →
  steps_losses' (Z.to_nat num_epochs * Z.to_nat steps_per_epoch) w 0 = Ok (w', it', ls) →
  let losses :=
    map epoch_loss' (chunks (Z.to_nat steps_per_epoch) (Z.to_nat num_epochs) ls) in
  let events :=
    training_events str_loss steps_per_epoch (client_id p) (range num_epochs) losses in
  train_model train_step fzero fadd fdiv reduce_mean str_loss dataset pack_fn
              steps_per_epoch num_epochs w p
    = Ok ((w', losses), add_trace p events) ∧
  Z.of_nat (length ls) = num_epochs * steps_per_epoch ∧
  concat (chunks (Z.to_nat steps_per_epoch) (Z.to_nat num_epochs) ls) = ls ∧
  Z.of_nat (count_steps events) = num_epochs * steps_per_epoch ∧
  Z.of_nat (length losses) = num_epochs ∧
  prints events =
    rprint_events (client_id p) ["Training started..."%string]
    ++ concat (zip_with (λ epoch loss,
                           rprint_events (client_id p) (epoch_report str_loss epoch loss))
                        (range num_epochs) losses).
Proof.
  intros HE HS Hrun losses events.
  pose proof (length_steps_losses _ _ _ _ _ _ Hrun) as Hlen.
  assert (length losses = Z.to_nat num_epochs) as Hlosses.
  { unfold losses. by rewrite length_map, length_chunks. }
  split_and!.
  - unfold train_model, bindM. rewrite rprint_add_trace.
    unfold range.
    rewrite (train_epochs_run _ 0 w 0%nat [] _ w' it' ls); [|lia|done].
    by rewrite add_trace_app.
  - rewrite Hlen. lia.
  - apply concat_chunks. lia.
  - unfold events, training_events. rewrite count_steps_app, count_steps_rprint. simpl.
    rewrite count_steps_epochs by (unfold range; by rewrite length_seq).
    rewrite Hlosses. lia.
  - rewrite Hlosses. lia.
  - unfold events, training_events.
    by rewrite prints_app, prints_rprint, prints_epochs.
Qed.

End TrainProofs.

Lemma train_model_spec_witness :
  let run := match steps_losses demo_train_step demo_dataset demo_packer 6 0%nat 0%nat with
             | Ok r => r
             | Raise _ => (0%nat, 0%nat, [])
             end in
  let losses := map (epoch_loss 0 Z.add Z.div 2) (chunks 2 3 run.2) in
  let events := training_events pretty 2 0 (range 3) losses in
  train_model demo_train_step 0 Z.add Z.div (λ x, x) pretty demo_dataset demo_packer
              2 3 0%nat (start_process 0 2)
    = Ok ((run.1.1, losses), add_trace (start_process 0 2) events) ∧
  Z.of_nat (length run.2) = 3 * 2 ∧
  concat (chunks 2 3 run.2) = run.2 ∧
  Z.of_nat (count_steps events) = 3 * 2 ∧
  Z.of_nat (length losses) = 3 ∧
  prints events =
    rprint_events 0 ["Training started..."%string]
    ++ concat (zip_with (λ epoch loss, rprint_events 0 (epoch_report pretty epoch loss))
                        (range 3) losses).
Proof.
  intros run.
  apply (train_model_spec demo_train_step 0 Z.add Z.div (λ x, x) pretty
           demo_dataset demo_packer 2 3 (λ x, eq_refl) 0%nat (start_process 0 2)
           run.1.1 run.1.2 run.2).
  - lia.
  - lia.
  - vm_compute. reflexivity.
Defined.

Example train_model_demo :
  (λ r, (r.1.2, prints (trace r.2))) <$>
    train_model demo_train_step 0 Z.add Z.div (λ x, x) pretty demo_dataset demo_packer
                2 3 0%nat (start_process 0 2)
  = Ok ([32; 34; 36],
        [EvPrint "[Client: 000] Training started...";
         EvPrint "[Client: 000] Epoch 0: Loss: 32";
         EvPrint "[Client: 000] Epoch 1: Loss: 34";
         EvPrint "[Client: 000] Epoch 2: Loss: 36"]).
Proof. vm_compute. reflexivity. Qed.

(** ** More on the sharding packer *)

Lemma replica_count_nonempty d mesh :
  Forall (λ entry : gmap string Z, is_Some (entry !! d)) (local_device_locations mesh) →
  local_device_locations mesh ≠ [] → replica_count d mesh ≠ 0%nat.
Proof.
  intros Hcoord Hne Hz. pose proof (batch_coords_complete d mesh Hcoord) as Hcs.
  unfold replica_count in Hz. apply nil_length_inv in Hz.
  destruct (batch_coords d mesh) as [|c cs].
  - apply Forall2_nil_inv_r in Hcs. done.
  - assert (c ∈ remove_dups (c :: cs)) as Hin by (apply elem_of_remove_dups; left).
    rewrite Hz in Hin. by apply elem_of_nil in Hin.
Qed.

Lemma replica_count_empty d mesh :
  local_device_locations mesh = [] → replica_count d mesh = 0%nat.
Proof. intros Hnil. unfold replica_count, batch_coords. by rewrite Hnil. Qed.

Lemma collect_replicas_batch_coords d mesh :
  Forall (λ entry : gmap string Z, is_Some (entry !! d)) (local_device_locations mesh) →
  collect_replicas d (local_device_locations mesh) ∅ = Ok (list_to_set (batch_coords d mesh)).
Proof.
  intros Hcoord. rewrite collect_replicas_Ok by done.
  by rewrite (left_id_L ∅ (∪)).
Qed.

Lemma collect_replicas_KeyError d (es : list (gmap string Z)) (acc : gset Z) :
  ¬ Forall (λ entry : gmap string Z, is_Some (entry !! d)) es →
  collect_replicas d es acc = Raise KeyError.
Proof.
  revert acc. induction es as [|e es IH]; intros acc Hnot; simpl.
  - destruct Hnot. constructor.
  - destruct (e !! d) as [c|] eqn:Hc; [|done].
    apply IH. intros Hall. apply Hnot. constructor; eauto.
Qed.

Lemma size_replicas d mesh :
  size (list_to_set (C:=gset Z) (batch_coords d mesh)) = replica_count d mesh.
Proof. by rewrite size_list_to_set_distinct, length_distinct_sorted. Qed.

Section ShardDataGeneral.
Context {A : Type} `{Rows A}.

(** What [shard_data] returns when it returns, with no assumption on the
    coordinates but that the local devices have one. *)
Lemma shard_data_general mesh d n (tensor : list A) :
  assoc d (dims mesh) = Some n →
  Forall (λ entry : gmap string Z, is_Some (entry !! d)) (local_device_locations mesh) →
  local_device_locations mesh ≠ [] →
  (replica_count d mesh | length tensor)%nat →
  let R := replica_count d mesh in
  let slices := chunks (length tensor `div` R)%nat R tensor in
  ∃ components,
    shard_data mesh d tensor =
      Ok {| dt_layout :=
              {| sharding_specs := Sharded d :: replicate (tensor_rank tensor - 1) UNSHARDED;
                 layout_mesh := mesh |};
            dt_components := components;
            dt_shape0 := Z.of_nat (length tensor `div` R) * n |} ∧
    length components = length (local_device_locations mesh) ∧
    Forall (λ component, length component = (length tensor `div` R)%nat) components ∧
    ∀ i (entry : gmap string Z) c k,
      local_device_locations mesh !! i = Some entry → entry !! d = Some c →
      distinct_sorted (batch_coords d mesh) !! k = Some c →
      components !! i = slices !! k.
Proof.
  intros Hd Hcoord Hne Hdiv R slices.
  pose proof (replica_count_nonempty d mesh Hcoord Hne) as HR. fold R in HR.
  pose proof (batch_coords_complete d mesh Hcoord) as Hcs.
  pose proof (size_replicas d mesh) as Hsize. fold R in Hsize.
  pose proof (collect_replicas_batch_coords d mesh Hcoord) as Hrep.
  assert (tf_split tensor R = Ok slices) as Hsplit by (by apply tf_split_Ok).
  assert (Forall (λ c, length c = (length tensor `div` R)%nat) slices) as Hls.
  { apply chunks_lengths. destruct Hdiv as [q Hq]. fold R in Hq.
    rewrite Hq, Nat.div_mul by done. lia. }
  destruct (pick_components_Ok d (replica_to_slice (list_to_set (batch_coords d mesh)))
              slices (local_device_locations mesh)) as (comps & Hpick & Hcomps).
  { apply Forall_forall. intros entry Hentry.
    rewrite Forall_forall in Hcoord. destruct (Hcoord entry Hentry) as [c Hc].
    assert (c ∈ distinct_sorted (batch_coords d mesh)) as Hin.
    { apply elem_of_distinct_sorted.
      apply list_elem_of_lookup in Hentry as [i Hi].
      destruct (Forall2_lookup_l _ _ _ _ _ Hcs Hi) as (c' & Hc' & Hec').
      apply list_elem_of_lookup. exists i. congruence. }
    apply list_elem_of_lookup in Hin as [k Hk].
    exists c, k. split_and!; [done|by apply replica_to_slice_lookup|].
    apply lookup_lt_is_Some. unfold slices. rewrite length_chunks.
    apply lookup_lt_Some in Hk. rewrite length_distinct_sorted in Hk. done. }
  assert (Forall (λ c, length c = (length tensor `div` R)%nat) comps) as Hlc.
  { apply Forall_forall. intros comp Hcomp.
    apply list_elem_of_lookup in Hcomp as [i Hi].
    destruct (Forall2_lookup_r _ _ _ _ _ Hcomps Hi) as (e & _ & c & k & _ & _ & Hk).
    rewrite Forall_forall in Hls. apply Hls. apply list_elem_of_lookup. eauto. }
  assert (length comps = length (local_device_locations mesh)) as Hlen
    by (symmetry; by eapply Forall2_length).
  exists comps. split_and!; [|done|done|].
  - unfold shard_data, batch_sharded. rewrite Hd. simpl. rewrite Hrep. simpl.
    rewrite Hsize, Hsplit. simpl. rewrite Hpick. simpl.
    apply dtensor_pack_Ok with (d := d) (rest := replicate (tensor_rank tensor - 1) UNSHARDED);
      simpl; [done|done|done| |done].
    intros ->. apply Forall2_nil_inv_r in Hcomps. done.
  - intros i entry c k Hi Hc Hk.
    destruct (Forall2_lookup_l _ _ _ _ _ Hcomps Hi) as (comp & Hcompi & c' & k' & Hc' & Hk' & Hs).
    rewrite Hcompi, <-Hs. f_equal.
    apply replica_to_slice_lookup in Hk. congruence.
Qed.

(** The conditions under which [shard_data] returns. *)
Lemma shard_data_Ok_inv mesh d (tensor : list A) dt :
  shard_data mesh d tensor = Ok dt →
  is_Some (assoc d (dims mesh)) ∧
  Forall (λ entry : gmap string Z, is_Some (entry !! d)) (local_device_locations mesh) ∧
  local_device_locations mesh ≠ [] ∧
  (replica_count d mesh | length tensor)%nat.
Proof.
  unfold shard_data, batch_sharded.
  destruct (assoc d (dims mesh)) as [n|] eqn:Hd; [|done]. simpl.
  destruct (collect_replicas d (local_device_locations mesh) ∅) as [replicas|] eqn:Hrep;
    [|done]. simpl.
  pose proof (collect_replicas_inv _ _ _ _ Hrep) as Hcoord.
  rewrite (collect_replicas_batch_coords d mesh Hcoord) in Hrep. injection Hrep as <-.
  rewrite size_replicas.
  destruct (tf_split tensor (replica_count d mesh)) as [slices|] eqn:Hsplit; [|done].
  apply tf_split_inv in Hsplit as (HR & Hdiv & _).
  intros _. split_and!; [eauto|done| |done].
  intros Hnil. by apply HR, replica_count_empty.
Qed.

(** X1: [shard_data] returns exactly when the batch dimension is one of the
    mesh, every local device has a coordinate along it, the client owns a
    device, and the number of distinct coordinates divides the extent of the
    tensor along axis 0. *)
Theorem shard_data_succeeds_iff (mesh : Mesh) (batch_dim : string) (tensor : list A) :
  (∃ dt, shard_data mesh batch_dim tensor = Ok dt) ↔
  is_Some (assoc batch_dim (dims mesh)) ∧
  Forall (λ entry : gmap string Z, is_Some (entry !! batch_dim))
         (local_device_locations mesh) ∧
  local_device_locations mesh ≠ [] ∧
  (replica_count batch_dim mesh | length tensor)%nat.
Proof.
  split.
  - intros [dt Hdt]. by eapply shard_data_Ok_inv.
  - intros ([n Hn] & Hcoord & Hne & Hdiv).
    destruct (shard_data_general mesh batch_dim n tensor Hn Hcoord Hne Hdiv)
      as (components & Hdt & _). eauto.
Qed.

(** X2: the errors of [shard_data], in the order the code meets them: a
    batch dimension that is no dimension of the mesh (and none of the names
    the library keeps for its sharding specifications) is the
    [RuntimeError] of the layout; for a dimension of the mesh, a local
    device without a coordinate along it is a [KeyError]; otherwise a client
    without devices, or an extent that the number of replicas does not
    divide, is the [InvalidArgumentError] of [tf.split]. *)
Theorem shard_data_errors (mesh : Mesh) (batch_dim : string) (tensor : list A) :
  (assoc batch_dim (dims mesh) = None →
   batch_dim ≠ "unsharded"%string → batch_dim ≠ "match"%string →
     shard_data mesh batch_dim tensor = Raise RuntimeError) ∧
  (is_Some (assoc batch_dim (dims mesh)) →
   ¬ Forall (λ entry : gmap string Z, is_Some (entry !! batch_dim))
            (local_device_locations mesh) →
     shard_data mesh batch_dim tensor = Raise KeyError) ∧
  (is_Some (assoc batch_dim (dims mesh)) →
   Forall (λ entry : gmap string Z, is_Some (entry !! batch_dim))
          (local_device_locations mesh) →
   local_device_locations mesh = [] ∨
   ¬ (replica_count batch_dim mesh | length tensor)%nat →
     shard_data mesh batch_dim tensor = Raise InvalidArgumentError).
Proof.
  split_and!.
  - intros Hd _ _. unfold shard_data, batch_sharded. by rewrite Hd.
  - intros [n Hn] Hnot. unfold shard_data, batch_sharded. rewrite Hn. simpl.
    by rewrite collect_replicas_KeyError.
  - intros [n Hn] Hcoord Hbad. unfold shard_data, batch_sharded. rewrite Hn. simpl.
    rewrite (collect_replicas_batch_coords batch_dim mesh Hcoord). simpl.
    rewrite size_replicas. destruct Hbad as [Hnil|Hndiv].
    + rewrite (replica_count_empty _ _ Hnil). done.
    + by rewrite tf_split_Raise.
Qed.

Lemma shard_data_Ok_general mesh d (tensor : list A) dt :
  shard_data mesh d tensor = Ok dt →
  let R := replica_count d mesh in
  let slices := chunks (length tensor `div` R)%nat R tensor in
  ∃ n,
    assoc d (dims mesh) = Some n ∧
    dt_layout dt =
      {| sharding_specs := Sharded d :: replicate (tensor_rank tensor - 1) UNSHARDED;
         layout_mesh := mesh |} ∧
    dt_shape0 dt = Z.of_nat (length tensor `div` R) * n ∧
    length (dt_components dt) = length (local_device_locations mesh) ∧
    Forall (λ component, length component = (length tensor `div` R)%nat)
           (dt_components dt) ∧
    ∀ i (entry : gmap string Z) c k,
      local_device_locations mesh !! i = Some entry → entry !! d = Some c →
      distinct_sorted (batch_coords d mesh) !! k = Some c →
      dt_components dt !! i = slices !! k.
Proof.
  intros Hdt R slices.
  destruct (shard_data_Ok_inv mesh d tensor dt Hdt) as ([n Hn] & Hcoord & Hne & Hdiv).
  destruct (shard_data_general mesh d n tensor Hn Hcoord Hne Hdiv)
    as (components & Hrun & Hlen & Hlc & Hcomp).
  rewrite Hrun in Hdt. injection Hdt as <-. exists n. simpl. done.
Qed.

End ShardDataGeneral.

Lemma filter_lt_sorted (l : list Z) k c :
  StronglySorted Z.lt l → l !! k = Some c →
  length (List.filter (λ c', Z.ltb c' c) l) = k.
Proof.
  intros Hs. revert k. induction Hs as [|x l _ IH Hx]; intros k Hk; [done|].
  destruct k as [|k]; simpl in Hk.
  - injection Hk as ->. simpl. rewrite Z.ltb_irrefl.
    rewrite Forall_forall in Hx.
    assert (List.filter (λ c', Z.ltb c' c) l = []) as ->; [|done].
    clear -Hx. induction l as [|y l IH]; [done|]. simpl.
    destruct (Z.ltb_spec y c) as [Hlt|_].
    + specialize (Hx y (list_elem_of_here _ _)). lia.
    + apply IH. intros z Hz. apply Hx. by right.
  - simpl. rewrite Forall_forall in Hx.
    assert (x < c) as Hxc by (apply Hx, list_elem_of_lookup; eauto).
    destruct (Z.ltb_spec x c); [|lia]. simpl. f_equal. by apply IH.
Qed.

Lemma filter_length_Permutation {B} (P : B → bool) (l1 l2 : list B) :
  l1 ≡ₚ l2 → length (List.filter P l1) = length (List.filter P l2).
Proof.
  induction 1 as [|x l1 l2 _ IH|x y l|l1 l2 l3 _ IH1 _ IH2]; simpl.
  - done.
  - destruct (P x); simpl; by rewrite IH.
  - destruct (P x), (P y); done.
  - by rewrite IH1.
Qed.

Lemma coordinate_rank_lookup (coords : list Z) k c :
  distinct_sorted coords !! k = Some c → coordinate_rank coords c = k.
Proof.
  intros Hk. unfold coordinate_rank.
  rewrite (filter_length_Permutation _ (remove_dups coords) (distinct_sorted coords)).
  - apply filter_lt_sorted; [apply distinct_sorted_lt|done].
  - unfold distinct_sorted. by rewrite merge_sort_Permutation.
Qed.

Section ShardDataExtras.
Context {A : Type} `{Rows A}.

(** X3: whenever [shard_data] returns, the result has one component per
    local device, every component has the extent of the tensor over the
    number of replicas, the global extent along axis 0 is that of a component
    times the size of the batch dimension, and the layout shards axis 0 over
    the batch dimension and no other axis of the tensor. *)
Theorem shard_data_shape (mesh : Mesh) (batch_dim : string) (tensor : list A)
    (dt : DTensor A) :
  shard_data mesh batch_dim tensor = Ok dt →
  let per_replica := (length tensor `div` replica_count batch_dim mesh)%nat in
  length (dt_components dt) = length (local_device_locations mesh) ∧
  Forall (λ component, length component = per_replica) (dt_components dt) ∧
  (∃ size, dim_size mesh batch_dim = Ok size ∧
           dt_shape0 dt = Z.of_nat per_replica * size) ∧
  sharding_specs (dt_layout dt)
    = Sharded batch_dim :: replicate (tensor_rank tensor - 1) UNSHARDED ∧
  length (sharding_specs (dt_layout dt)) = tensor_rank tensor ∧
  layout_mesh (dt_layout dt) = mesh.
Proof.
  intros Hdt per_replica.
  destruct (shard_data_Ok_general mesh batch_dim tensor dt Hdt)
    as (n & Hn & Hlayout & Hshape & Hlen & Hlc & _).
  rewrite Hlayout. simpl. split_and!; [done|done| |done| |done].
  - exists n. unfold dim_size. rewrite Hn. done.
  - rewrite length_replicate. unfold tensor_rank. lia.
Qed.

(** X4: whenever [shard_data] returns, the device whose batch coordinate has
    [k] of the client's distinct batch coordinates below it holds the rows
    from [k] times the extent of a component on: consecutive rows of the
    tensor, in the order of the coordinates. *)
Theorem shard_data_blocks (mesh : Mesh) (batch_dim : string) (tensor : list A)
    (dt : DTensor A) (i : nat) (entry : gmap string Z) (c : Z) :
  shard_data mesh batch_dim tensor = Ok dt →
  local_device_locations mesh !! i = Some entry →
  entry !! batch_dim = Some c →
  let per_replica := (length tensor `div` replica_count batch_dim mesh)%nat in
  let k := coordinate_rank (batch_coords batch_dim mesh) c in
  dt_components dt !! i = Some (take per_replica (drop (k * per_replica) tensor)).
Proof.
  intros Hdt Hi Hc per_replica k.
  destruct (shard_data_Ok_inv mesh batch_dim tensor dt Hdt) as (_ & Hcoord & _ & _).
  destruct (shard_data_Ok_general mesh batch_dim tensor dt Hdt)
    as (n & _ & _ & _ & _ & _ & Hcomp).
  assert (c ∈ distinct_sorted (batch_coords batch_dim mesh)) as Hin.
  { apply elem_of_distinct_sorted.
    destruct (Forall2_lookup_l _ _ _ _ _ (batch_coords_complete batch_dim mesh Hcoord) Hi)
      as (c' & Hc' & Hec').
    apply list_elem_of_lookup. exists i. congruence. }
  apply list_elem_of_lookup in Hin as [k' Hk'].
  assert (k = k') as -> by (by apply coordinate_rank_lookup).
  rewrite (Hcomp i entry c k' Hi Hc Hk').
  apply chunks_lookup. apply lookup_lt_Some in Hk'.
  by rewrite length_distinct_sorted in Hk'.
Qed.

End ShardDataExtras.

Lemma shard_data_shape_witness :
  let tensor := [1; 2; 3; 4; 5; 6] in
  let dt := match shard_data client_B BATCH_DIM tensor with
            | Ok dt => dt
            | Raise _ => {| dt_layout := {| sharding_specs := []; layout_mesh := client_B |};
                            dt_components := []; dt_shape0 := 0 |}
            end in
  let per_replica := (length tensor `div` replica_count BATCH_DIM client_B)%nat in
  length (dt_components dt) = length (local_device_locations client_B) ∧
  Forall (λ component, length component = per_replica) (dt_components dt) ∧
  (∃ size, dim_size client_B BATCH_DIM = Ok size ∧
           dt_shape0 dt = Z.of_nat per_replica * size) ∧
  sharding_specs (dt_layout dt)
    = Sharded BATCH_DIM :: replicate (tensor_rank tensor - 1) UNSHARDED ∧
  length (sharding_specs (dt_layout dt)) = tensor_rank tensor ∧
  layout_mesh (dt_layout dt) = client_B.
Proof.
  intros tensor dt.
  apply (shard_data_shape client_B BATCH_DIM tensor dt).
  vm_compute. reflexivity.
Defined.

Lemma shard_data_blocks_witness :
  let tensor := [1; 2; 3; 4; 5; 6] in
  let dt := match shard_data client_B BATCH_DIM tensor with
            | Ok dt => dt
            | Raise _ => {| dt_layout := {| sharding_specs := []; layout_mesh := client_B |};
                            dt_components := []; dt_shape0 := 0 |}
            end in
  dt_components dt !! 3%nat = Some (take 3 (drop (1 * 3) tensor)).
Proof.
  intros tensor dt.
  apply (shard_data_blocks client_B BATCH_DIM tensor dt 3 (location 3 1) 3).
  - vm_compute. reflexivity.
  - reflexivity.
  - reflexivity.
Defined.

(** ** More on the consensus *)

Lemma length_remove_dups_le (l : list Z) : (length (remove_dups l) ≤ length l)%nat.
Proof.
  induction l as [|x l IH]; simpl; [done|].
  destruct (decide_rel elem_of x l); simpl; lia.
Qed.

Lemma length_gathered peers c n x : length (gathered peers c n x) = n.
Proof. unfold gathered. by rewrite length_map, length_seq. Qed.

Lemma elem_of_gathered peers c n x v :
  v ∈ gathered peers c n x ↔
  (c < n)%nat ∧ v = x ∨ ∃ i, (i < n)%nat ∧ i ≠ c ∧ v = peers i.
Proof.
  unfold gathered. rewrite list_elem_of_fmap. split.
  - intros (i & -> & Hi%elem_of_seq). destruct (Nat.eqb_spec i c) as [->|Hne].
    + left. split; [lia|done].
    + right. exists i. split_and!; [lia|done|done].
  - intros [[Hc ->]|(i & Hi & Hne & ->)].
    + exists c. rewrite Nat.eqb_refl. split; [done|]. apply elem_of_seq. lia.
    + exists i. destruct (Nat.eqb_spec i c); [done|]. split; [done|].
      apply elem_of_seq. lia.
Qed.

(** X5: the list [unique_across_clients] returns holds the caller's value
    as 32 signed bits (the value itself when it fits them) and nothing but
    this and the values the other clients packed in the round; it is not
    empty and not longer than the number of clients. *)
Theorem unique_across_clients_members (peers : nat → Z) (x : Z) (p : Process)
    (l : list Z) (p' : Process) :
  wf_process p →
  unique_across_clients peers x p = Ok (l, p') →
  wrap_int32 x ∈ l ∧
  (int32 x → x ∈ l) ∧
  (∀ v, v ∈ l →
     v = wrap_int32 x ∨ ∃ i, (i < num_clients p)%nat ∧ i ≠ client_id p ∧ v = peers i) ∧
  (0 < length l ≤ num_clients p)%nat.
Proof.
  intros Hwf Hrun.
  destruct (decide (int64 x)) as [Hx|Hx].
  2:{ by rewrite unique_across_clients_Raise in Hrun. }
  destruct (unique_across_clients_component peers x (wrap_int32 x) p Hwf
              (tf_constant_int32_int64 x Hx)) as (p'' & Hok & _).
  rewrite Hok in Hrun. injection Hrun as <- <-.
  assert (wrap_int32 x
            ∈ distinct_sorted (gathered peers (client_id p) (num_clients p) (wrap_int32 x)))
    as Hin.
  { apply elem_of_distinct_sorted, elem_of_gathered. left. by destruct Hwf. }
  split_and!; [done| | | |].
  - intros Hx32. by rewrite (wrap_int32_small x Hx32) in Hin |- *.
  - intros v Hv. rewrite elem_of_distinct_sorted, elem_of_gathered in Hv.
    destruct Hv as [[_ ->]|Hv]; eauto.
  - destruct (distinct_sorted _); [by apply elem_of_nil in Hin|simpl; lia].
  - rewrite length_distinct_sorted.
    etrans; [apply length_remove_dups_le|]. by rewrite length_gathered.
Qed.

Lemma unique_across_clients_members_witness :
  let x := 2 ^ 32 + 2 in
  let run := unique_across_clients (round_peers [0; 2; 2]) x (start_process 1 3) in
  let l := match run with Ok r => r.1 | Raise _ => [] end in
  wrap_int32 x ∈ l ∧
  (int32 x → x ∈ l) ∧
  (∀ v, v ∈ l →
     v = wrap_int32 x ∨ ∃ i, (i < 3)%nat ∧ i ≠ 1%nat ∧ v = round_peers [0; 2; 2] i) ∧
  (0 < length l ≤ 3)%nat.
Proof.
  intros x run l.
  apply (unique_across_clients_members (round_peers [0; 2; 2]) x (start_process 1 3) l
           (match run with Ok r => r.2 | Raise _ => start_process 1 3 end)).
  - split; [simpl; lia|]. intros m Hm. discriminate Hm.
  - vm_compute. reflexivity.
Defined.



(** X7: a second call with the same value in the same round returns the same
    list and leaves the process as the first call left it. *)
Theorem unique_across_clients_again (peers : nat → Z) (x : Z) (p : Process)
    (l : list Z) (p' : Process) :
  unique_across_clients peers x p = Ok (l, p') →
  unique_across_clients peers x p' = Ok (l, p').
Proof.
  intros Hrun. pose proof Hrun as Hfirst.
  unfold unique_across_clients, bindM in Hrun.
  destruct (client_mesh p) as [m|] eqn:Hm.
  - unfold retM at 1 in Hrun. unfold liftM in Hrun.
    destruct (tf_constant_int32 x) as [component|]; [|done].
    destruct (dtensor_pack [component] _) as [packed|]; [|done].
    unfold retM in Hrun. injection Hrun as _ <-. exact Hfirst.
  - unfold create_client_mesh, set_client_mesh, retM, liftM in Hrun.
    destruct (negb _); [done|]. simpl in Hrun.
    destruct (tf_constant_int32 x) as [component|] eqn:Hx; [|done]. simpl in Hrun.
    injection Hrun as <- <-.
    unfold unique_across_clients, bindM, retM, liftM. simpl. rewrite Hx. done.
Qed.

Lemma unique_across_clients_again_witness :
  let run := unique_across_clients (round_peers [0; 2]) 2 (start_process 1 2) in
  let l := match run with Ok r => r.1 | Raise _ => [] end in
  let p' := match run with Ok r => r.2 | Raise _ => start_process 1 2 end in
  unique_across_clients (round_peers [0; 2]) 2 p' = Ok (l, p').
Proof.
  intros run l p'.
  apply (unique_across_clients_again (round_peers [0; 2]) 2 (start_process 1 2) l p').
  vm_compute. reflexivity.
Defined.

(** ** More on the input partitioner *)

(** X8: [get_pipeline_params] fails with a [KeyError] when a local device has
    no coordinate along the batch dimension, and with the [ValueError] of
    [min] of an empty set when the client owns no device; in both cases before
    it reaches the consensus. *)
Theorem get_pipeline_params_errors (peers : nat → Z) (mesh : Mesh) (p : Process) :
  (¬ Forall (λ entry : gmap string Z, is_Some (entry !! BATCH_DIM))
            (local_device_locations mesh) →
     get_pipeline_params peers mesh p = Raise KeyError) ∧
  (local_device_locations mesh = [] →
     get_pipeline_params peers mesh p = Raise ValueError).
Proof.
  split.
  - intros Hnot. unfold get_pipeline_params, bindM, liftM.
    by rewrite collect_replicas_KeyError.
  - intros Hnil. unfold get_pipeline_params, bindM, liftM. rewrite Hnil. simpl.
    unfold py_min. by rewrite elements_empty.
Qed.

(** X9: the parameters [get_pipeline_params] returns are within bounds: the
    pipeline id is below the number of pipelines, which is at most the number
    of clients; the number of local replicas is at least one and at most the
    number of local devices and the size of the batch dimension. *)
Theorem get_pipeline_params_bounds (peers : nat → Z) (mesh : Mesh) (p : Process)
    (n : Z) (pp : PipelineParams) (p' : Process) :
  wf_mesh mesh = true →
  assoc BATCH_DIM (dims mesh) = Some n →
  wf_process p →
  get_pipeline_params peers mesh p = Ok (pp, p') →
  (input_pipeline_id pp < num_input_pipelines pp ≤ num_clients p)%nat ∧
  (1 ≤ num_local_replicas_in_sync pp ≤ length (local_device_locations mesh))%nat ∧
  Z.of_nat (num_local_replicas_in_sync pp) ≤ n.
Proof.
  intros Hwf Hn Hp Hrun.
  assert (is_Some (assoc BATCH_DIM (dims mesh))) as Hsome by eauto.
  destruct (get_pipeline_params_Ok peers mesh p Hwf Hsome Hp)
    as (k & p'' & _ & _ & _ & Hk & Hget).
  rewrite Hget in Hrun. injection Hrun as <- <-. simpl.
  pose proof (wf_mesh_has_coordinate mesh BATCH_DIM Hwf Hsome) as Hcoord.
  split_and!.
  - by eapply lookup_lt_Some.
  - rewrite length_distinct_sorted.
    etrans; [apply length_remove_dups_le|]. by rewrite length_gathered.
  - pose proof (replica_count_pos BATCH_DIM mesh Hwf Hsome) as HR.
    lia.
  - unfold replica_count. etrans; [apply length_remove_dups_le|].
    by rewrite (Forall2_length _ _ _ (batch_coords_complete BATCH_DIM mesh Hcoord)).
  - unfold replica_count. rewrite <-length_distinct_sorted.
    pose proof (strictly_sorted_length (distinct_sorted (batch_coords BATCH_DIM mesh)) 0 n
                  (distinct_sorted_lt _)) as Hlen.
    assert (0 ≤ n).
    { pose proof (batch_coords_nonempty mesh Hwf Hsome) as Hne.
      destruct (batch_coords BATCH_DIM mesh) as [|c cs] eqn:Hcs; [done|].
      assert (c ∈ batch_coords BATCH_DIM mesh) as Hc by (rewrite Hcs; left).
      destruct (batch_coords_range mesh n c Hwf Hn Hc). lia. }
    assert (Z.of_nat (length (distinct_sorted (batch_coords BATCH_DIM mesh))) ≤ n - 0);
      [|lia].
    apply Hlen; [|done]. apply Forall_forall. intros c Hc.
    rewrite elem_of_distinct_sorted in Hc.
    destruct (batch_coords_range mesh n c Hwf Hn Hc) as [Hr _]. exact Hr.
Qed.

Lemma get_pipeline_params_bounds_witness :
  let run := get_pipeline_params (round_peers [0; 2]) client_B (start_process 1 2) in
  let pp := match run with
            | Ok r => r.1
            | Raise _ => {| input_pipeline_id := 0; num_input_pipelines := 0;
                            num_local_replicas_in_sync := 0 |}
            end in
  (input_pipeline_id pp < num_input_pipelines pp ≤ 2)%nat ∧
  (1 ≤ num_local_replicas_in_sync pp ≤ length (local_device_locations client_B))%nat ∧
  Z.of_nat (num_local_replicas_in_sync pp) ≤ 4.
Proof.
  intros run pp.
  apply (get_pipeline_params_bounds (round_peers [0; 2]) client_B (start_process 1 2) 4 pp
           (match run with Ok r => r.2 | Raise _ => start_process 1 2 end)).
  - reflexivity.
  - reflexivity.
  - split; [simpl; lia|]. intros m Hm. discriminate Hm.
  - vm_compute. reflexivity.
Defined.

(** The pipeline parameters of a client of a cluster, in the round in which
    every client submits its representative. *)
Lemma cluster_pipeline_params (cluster : list Mesh) (c : nat) (mesh : Mesh) (p : Process) :
  Forall (λ mesh, wf_mesh mesh = true ∧ is_Some (assoc BATCH_DIM (dims mesh))) cluster →
  cluster !! c = Some mesh →
  wf_process p → client_id p = c → num_clients p = length cluster →
  let ranked := distinct_sorted (representative <$> cluster) in
  ∃ k p',
    ranked !! k = Some (representative mesh) ∧
    get_pipeline_params (round_peers (representative <$> cluster)) mesh p =
      Ok ({| input_pipeline_id := k;
             num_input_pipelines := length ranked;
             num_local_replicas_in_sync := replica_count BATCH_DIM mesh |}, p').
Proof.
  intros Hwf Hmesh Hp Hid Hn ranked.
  rewrite Forall_forall in Hwf.
  destruct (Hwf mesh) as [Hwfm Hdim]; [apply list_elem_of_lookup; eauto|].
  destruct (get_pipeline_params_Ok (round_peers (representative <$> cluster)) mesh p
              Hwfm Hdim Hp) as (k & p' & _ & _ & _ & Hk & Hget).
  assert ((representative <$> cluster) !! c = Some (representative mesh)) as Hrep
    by (by rewrite list_lookup_fmap, Hmesh).
  assert (length (representative <$> cluster) = length cluster) as Hlen
    by (by rewrite length_fmap).
  rewrite Hid, Hn, <-Hlen, gathered_round in Hk, Hget by done.
  exists k, p'. done.
Qed.

Lemma strictly_sorted_lookup_lt (l : list Z) i j x y :
  StronglySorted Z.lt l → l !! i = Some x → l !! j = Some y →
  (i < j)%nat ↔ x < y.
Proof.
  intros Hs. revert i j. induction Hs as [|z l Hl IH Hz]; intros i j Hi Hj; [done|].
  rewrite Forall_forall in Hz.
  destruct i as [|i], j as [|j]; simpl in *; simplify_eq.
  - split; lia.
  - assert (x < y) by (apply Hz, list_elem_of_lookup; eauto). split; [done|lia].
  - assert (y < x) by (apply Hz, list_elem_of_lookup; eauto). split; lia.
  - rewrite <-(IH i j) by done. lia.
Qed.

(** X10: in a round of a cluster, the pipeline ids are in the order of the
    representatives: one client's id is below another's exactly when its
    representative is, so two clients get the same id exactly when their
    representatives are equal; and the number of pipelines every client gets
    is the number of distinct representatives. *)
Theorem pipeline_ids_rank_representatives (cluster : list Mesh)
    (c1 c2 : nat) (mesh1 mesh2 : Mesh) (p1 p2 : Process)
    (pp1 pp2 : PipelineParams) (q1 q2 : Process) :
  Forall (λ mesh, wf_mesh mesh = true ∧ is_Some (assoc BATCH_DIM (dims mesh))) cluster →
  cluster !! c1 = Some mesh1 → cluster !! c2 = Some mesh2 →
  wf_process p1 → client_id p1 = c1 → num_clients p1 = length cluster →
  wf_process p2 → client_id p2 = c2 → num_clients p2 = length cluster →
  get_pipeline_params (round_peers (representative <$> cluster)) mesh1 p1 = Ok (pp1, q1) →
  get_pipeline_params (round_peers (representative <$> cluster)) mesh2 p2 = Ok (pp2, q2) →
  ((input_pipeline_id pp1 < input_pipeline_id pp2)%nat
     ↔ representative mesh1 < representative mesh2) ∧
  (input_pipeline_id pp1 = input_pipeline_id pp2
     ↔ representative mesh1 = representative mesh2) ∧
  num_input_pipelines pp1 = length (remove_dups (representative <$> cluster)) ∧
  num_input_pipelines pp2 = num_input_pipelines pp1.
Proof.
  intros Hwf Hm1 Hm2 Hp1 Hid1 Hn1 Hp2 Hid2 Hn2 Hrun1 Hrun2.
  destruct (cluster_pipeline_params cluster c1 mesh1 p1 Hwf Hm1 Hp1 Hid1 Hn1)
    as (k1 & q1' & Hk1 & Hget1).
  destruct (cluster_pipeline_params cluster c2 mesh2 p2 Hwf Hm2 Hp2 Hid2 Hn2)
    as (k2 & q2' & Hk2 & Hget2).
  rewrite Hget1 in Hrun1. rewrite Hget2 in Hrun2.
  injection Hrun1 as <- <-. injection Hrun2 as <- <-. simpl.
  pose proof (distinct_sorted_lt (representative <$> cluster)) as Hs.
  split_and!.
  - by apply (strictly_sorted_lookup_lt _ k1 k2 _ _ Hs).
  - split.
    + intros Heq. rewrite Heq in Hk1. congruence.
    + intros Heq. rewrite Heq in Hk1.
      eapply NoDup_lookup; [apply NoDup_distinct_sorted|done..].
  - apply length_distinct_sorted.
  - done.
Qed.

Lemma pipeline_ids_rank_representatives_witness :
  let cluster := [client_B; client_A] in
  let peers := round_peers (representative <$> cluster) in
  let params c mesh :=
    match get_pipeline_params peers mesh (start_process c 2) with
    | Ok r => r.1
    | Raise _ => {| input_pipeline_id := 0; num_input_pipelines := 0;
                    num_local_replicas_in_sync := 0 |}
    end in
  ((input_pipeline_id (params 0%nat client_B) < input_pipeline_id (params 1%nat client_A))%nat
     ↔ representative client_B < representative client_A) ∧
  (input_pipeline_id (params 0%nat client_B) = input_pipeline_id (params 1%nat client_A)
     ↔ representative client_B = representative client_A) ∧
  num_input_pipelines (params 0%nat client_B)
    = length (remove_dups (representative <$> cluster)) ∧
  num_input_pipelines (params 1%nat client_A) = num_input_pipelines (params 0%nat client_B).
Proof.
  intros cluster peers params.
  apply (pipeline_ids_rank_representatives cluster 0 1 client_B client_A
           (start_process 0 2) (start_process 1 2)
           (params 0%nat client_B) (params 1%nat client_A)
           (match get_pipeline_params peers client_B (start_process 0 2) with
            | Ok r => r.2 | Raise _ => start_process 0 2 end)
           (match get_pipeline_params peers client_A (start_process 1 2) with
            | Ok r => r.2 | Raise _ => start_process 1 2 end)).
  - repeat constructor; by exists 4.
  - reflexivity.
  - reflexivity.
  - split; [simpl; lia|]. intros m Hm. discriminate Hm.
  - reflexivity.
  - reflexivity.
  - split; [simpl; lia|]. intros m Hm. discriminate Hm.
  - reflexivity.
  - reflexivity.
  - vm_compute. reflexivity.
  - vm_compute. reflexivity.
Defined.

(** ** More on the generator and the dataset *)

Lemma lor_shiftr_nonneg m k : 0 ≤ m → 0 ≤ Z.lor m (Z.shiftr m k).
Proof. intros Hm. apply Z.lor_nonneg. split; [done|]. by apply Z.shiftr_nonneg. Qed.

Lemma gen_mask_nonneg rng : 0 ≤ rng → 0 ≤ gen_mask rng.
Proof. intros Hrng. unfold gen_mask. by do 6 apply lor_shiftr_nonneg. Qed.

Lemma bounded_masked_uint32_range fuel rng mask s val s' :
  0 ≤ mask →
  bounded_masked_uint32 fuel rng mask s = Some (val, s') → 0 ≤ val ≤ rng.
Proof.
  intros Hmask. revert s.
  induction fuel as [|fuel IH]; intros s; cbn [bounded_masked_uint32]; [done|].
  destruct (MT19937.next_uint32 s) as [r s1].
  destruct (Z.ltb_spec rng (Z.land r mask)) as [|Hle]; [apply IH|].
  intros [= <- <-]. split; [|done]. apply Z.land_nonneg. by right.
Qed.

Lemma bounded_fill_range count rng s vs s' :
  0 ≤ rng < 0xffffffff →
  bounded_fill count 0 rng s = Ok (vs, s') →
  length vs = count ∧ Forall (λ v, 0 ≤ v ≤ rng) vs.
Proof.
  intros Hrng. revert s vs.
  induction count as [|count IH]; intros s vs; cbn [bounded_fill].
  - intros [= <- <-]. split; [done|constructor].
  - unfold mbind, result_bind.
    destruct (Z.eqb_spec rng 0) as [Hz|Hnz].
    + destruct (bounded_fill count 0 rng s) as [[vs1 s1]|] eqn:Hrest; [|done].
      intros [= <- <-]. destruct (IH _ _ Hrest) as [Hlen Hall].
      split; [cbn [length]; by rewrite Hlen|]. constructor; [lia|done].
    + destruct (Z.eqb_spec rng 0xffffffff) as [|_]; [lia|].
      destruct (bounded_masked_uint32 max_draws rng (gen_mask rng) s)
        as [[v s1]|] eqn:Hdraw; unfold of_option; [|done].
      destruct (bounded_fill count 0 rng s1) as [[vs1 s2]|] eqn:Hrest; [|done].
      intros [= <- <-]. destruct (IH _ _ Hrest) as [Hlen Hall].
      split; [cbn [length]; by rewrite Hlen|]. constructor; [|done].
      apply bounded_masked_uint32_range in Hdraw; [lia|].
      apply gen_mask_nonneg. lia.
Qed.

Lemma randint_inv high count s vs s' :
  high < 2 ^ 32 →
  randint high count s = Ok (vs, s') →
  0 < high ∧ length vs = count ∧ Forall (λ v, 0 ≤ v < high) vs.
Proof.
  intros Hhigh. unfold randint. destruct (Z.leb_spec high 0) as [|Hpos]; [done|].
  intros Hfill. apply bounded_fill_range in Hfill as [Hlen Hall]; [|lia].
  split_and!; [done..|]. eapply Forall_impl; [done|]. intros v. cbv beta. lia.
Qed.

Lemma gen_mask_ones (k : nat) :
  (k < 32)%nat → gen_mask (2 ^ Z.of_nat k - 1) = 2 ^ Z.of_nat k - 1.
Proof. intros Hk. do 32 (destruct k as [|k]; [vm_compute; reflexivity|]). lia. Qed.

Lemma bounded_masked_uint32_ones (k fuel : nat) (s : MT19937.state) :
  ∃ r s',
    bounded_masked_uint32 (S fuel) (2 ^ Z.of_nat k - 1) (2 ^ Z.of_nat k - 1) s
    = Some (r, s').
Proof.
  cbn [bounded_masked_uint32]. destruct (MT19937.next_uint32 s) as [r s1].
  replace (2 ^ Z.of_nat k - 1) with (Z.ones (Z.of_nat k)) by (rewrite Z.ones_equiv; lia).
  rewrite Z.land_ones by lia.
  pose proof (Z.mod_pos_bound r (2 ^ Z.of_nat k) ltac:(lia)) as Hr.
  destruct (Z.ltb_spec (Z.ones (Z.of_nat k)) (r `mod` 2 ^ Z.of_nat k)) as [Hlt|_]; [|eauto].
  rewrite Z.ones_equiv in Hlt. lia.
Qed.

Lemma bounded_fill_ones (k count : nat) (s : MT19937.state) :
  (k < 32)%nat → ∃ vs s', bounded_fill count 0 (2 ^ Z.of_nat k - 1) s = Ok (vs, s').
Proof.
  intros Hk.
  assert (2 ^ Z.of_nat k ≤ 2 ^ 31) as Hpow by (apply Z.pow_le_mono_r; lia).
  revert s. induction count as [|count IH]; intros s; cbn [bounded_fill]; [eauto|].
  unfold mbind, result_bind.
  destruct (Z.eqb_spec (2 ^ Z.of_nat k - 1) 0) as [_|_].
  - destruct (IH s) as (vs & s' & ->). eauto.
  - destruct (Z.eqb_spec (2 ^ Z.of_nat k - 1) 0xffffffff) as [Heq|_]; [lia|].
    rewrite (gen_mask_ones k Hk).
    destruct (bounded_masked_uint32_ones k 999 s) as (r & s1 & Hdraw).
    change (S 999) with max_draws in Hdraw. rewrite Hdraw. unfold of_option.
    destruct (IH s1) as (vs & s' & ->). eauto.
Qed.

(** X11: a draw of [randint] below a power of two never rejects a number
    of the generator: whatever the state of the generator, [randint] returns
    as many integers as asked for, each from 0 up to, but not including, the
    bound. The bound 2 of the mask, of the type ids and of the labels is
    such a power. *)
Theorem randint_power_of_two (k count : nat) (s : MT19937.state) :
  (k < 32)%nat →
  ∃ vs s',
    randint (2 ^ Z.of_nat k) count s = Ok (vs, s') ∧
    length vs = count ∧ Forall (λ v, 0 ≤ v < 2 ^ Z.of_nat k) vs.
Proof.
  intros Hk.
  assert (2 ^ Z.of_nat k ≤ 2 ^ 31) as Hpow by (apply Z.pow_le_mono_r; lia).
  assert (0 < 2 ^ Z.of_nat k) as Hpos by (apply Z.pow_pos_nonneg; lia).
  destruct (bounded_fill_ones k count s Hk) as (vs & s' & Hfill).
  assert (randint (2 ^ Z.of_nat k) count s = Ok (vs, s')) as Hrun.
  { unfold randint. destruct (Z.leb_spec (2 ^ Z.of_nat k) 0) as [|_]; [lia|exact Hfill]. }
  exists vs, s'. split; [exact Hrun|].
  assert (2 ^ Z.of_nat k < 2 ^ 32) as Hhigh by lia.
  by destruct (randint_inv _ _ _ _ _ Hhigh Hrun) as (_ & ? & ?).
Qed.

Lemma randint_power_of_two_witness :
  ∃ vs s',
    randint (2 ^ Z.of_nat 1) 32 (MT19937.seed_state 7) = Ok (vs, s') ∧
    length vs = 32%nat ∧ Forall (λ v, 0 ≤ v < 2 ^ Z.of_nat 1) vs.
Proof. apply (randint_power_of_two 1 32 (MT19937.seed_state 7)). lia. Defined.

Lemma chunks_Forall {A} (P : A → Prop) size num (l : list A) :
  Forall P l → Forall (Forall P) (chunks size num l).
Proof.
  revert l. induction num as [|num IH]; intros l Hl; simpl; constructor.
  - by apply Forall_take.
  - apply IH. by apply Forall_drop.
Qed.

Lemma randint2_inv high rows cols s m s' :
  high < 2 ^ 32 →
  randint2 high rows cols s = Ok (m, s') →
  length m = rows ∧
  Forall (λ row, length row = cols ∧ Forall (λ v, 0 ≤ v < high) row) m.
Proof.
  intros Hhigh. unfold randint2, mbind, result_bind.
  destruct (randint high (rows * cols) s) as [[flat s1]|] eqn:Hflat; [|done].
  intros [= <- <-].
  destruct (randint_inv _ _ _ _ _ Hhigh Hflat) as (_ & Hlen & Hall).
  split; [apply length_chunks|].
  apply Forall_and. split.
  - apply chunks_lengths. lia.
  - by apply chunks_Forall.
Qed.

Lemma synthetic_arrays_inv (pipeline_id : nat) (a : Arrays) :
  synthetic_arrays pipeline_id = Ok a →
  let matrix (high : Z) (m : list (list Z)) :=
    length m = Z.to_nat batch_size ∧
    Forall (λ row, length row = Z.to_nat sequence_length ∧
                   Forall (λ v, 0 ≤ v < high) row) m in
  matrix vocab_size (word_id_data a) ∧
  matrix num_classes (mask_data a) ∧
  matrix num_classes (type_id_data a) ∧
  length (labels a) = Z.to_nat batch_size ∧
  Forall (λ v, 0 ≤ v < num_classes) (labels a).
Proof.
  intros Hrun matrix. unfold matrix. clear matrix. revert Hrun.
  unfold synthetic_arrays, mbind, result_bind.
  destruct (RandomState (Z.of_nat pipeline_id)) as [rng|]; [|done].
  destruct (randint2 vocab_size _ _ rng) as [[w rng1]|] eqn:Hw; [|done].
  destruct (randint2 num_classes _ _ rng1) as [[m rng2]|] eqn:Hm; [|done].
  destruct (randint2 num_classes _ _ rng2) as [[t rng3]|] eqn:Ht; [|done].
  destruct (randint num_classes _ rng3) as [[l rng4]|] eqn:Hl; [|done].
  intros [= <-]. cbn [word_id_data mask_data type_id_data labels].
  apply randint2_inv in Hw; [|reflexivity]. apply randint2_inv in Hm; [|reflexivity].
  apply randint2_inv in Ht; [|reflexivity].
  apply randint_inv in Hl as (_ & Hlen & Hall); [|reflexivity].
  exact (conj Hw (conj Hm (conj Ht (conj Hlen Hall)))).
Qed.

(** X12: for each pipeline id a client of the program's mesh can get (0 to
    3, the batch dimension having size 4), [get_dataset] does draw its
    arrays, and they have the shapes and the ranges the program asks for: 32
    rows of 10 word ids below the vocabulary size, 32 rows of 10 mask bits
    and of 10 type ids below the number of classes, and 32 labels below the
    number of classes. *)
Theorem synthetic_arrays_shape (pipeline_id : nat) :
  (pipeline_id < 4)%nat →
  ∃ a, synthetic_arrays pipeline_id = Ok a ∧
    let matrix (high : Z) (m : list (list Z)) :=
      length m = Z.to_nat batch_size ∧
      Forall (λ row, length row = Z.to_nat sequence_length ∧
                     Forall (λ v, 0 ≤ v < high) row) m in
    matrix vocab_size (word_id_data a) ∧
    matrix num_classes (mask_data a) ∧
    matrix num_classes (type_id_data a) ∧
    length (labels a) = Z.to_nat batch_size ∧
    Forall (λ v, 0 ≤ v < num_classes) (labels a).
Proof.
  intros Hid. destruct (synthetic_arrays_small pipeline_id Hid) as (a & Ha & _).
  exists a. split; [exact Ha|]. by apply (synthetic_arrays_inv pipeline_id).
Qed.

Lemma synthetic_arrays_shape_witness :
  ∃ a, synthetic_arrays 3 = Ok a ∧
    let matrix (high : Z) (m : list (list Z)) :=
      length m = Z.to_nat batch_size ∧
      Forall (λ row, length row = Z.to_nat sequence_length ∧
                     Forall (λ v, 0 ≤ v < high) row) m in
    matrix vocab_size (word_id_data a) ∧
    matrix num_classes (mask_data a) ∧
    matrix num_classes (type_id_data a) ∧
    length (labels a) = Z.to_nat batch_size ∧
    Forall (λ v, 0 ≤ v < num_classes) (labels a).
Proof. apply (synthetic_arrays_shape 3). lia. Defined.

Lemma result_mapM_ext {A B} (f g : A → result B) (l : list A) :
  (∀ x, f x = g x) → mapM f l = mapM g l.
Proof. intros Hfg. induction l as [|x l IH]; simpl; [done|]. by rewrite Hfg, IH. Qed.

Lemma repeated_rows_period {A} (rows : list A) (start n : nat) :
  repeated_rows rows (start + length rows) n = repeated_rows rows start n.
Proof.
  unfold repeated_rows. apply result_mapM_ext. intros k.
  destruct rows as [|r rows]; [done|].
  do 2 f_equal.
  replace (start + length (r :: rows) + k)%nat
    with (start + k + 1 * length (r :: rows))%nat by lia.
  by rewrite Nat.Div0.mod_add.
Qed.

(** X13: the dataset repeats: once the iterator has gone through one more
    full pass over the arrays, [next] gives the same batch again, whatever
    the batch size and the position. *)
Theorem ds_next_period (ds : Dataset) (it : nat) (rows : nat) :
  length (word_id_data (ds_arrays ds)) = rows →
  length (mask_data (ds_arrays ds)) = rows →
  length (type_id_data (ds_arrays ds)) = rows →
  length (labels (ds_arrays ds)) = rows →
  fst <$> ds_next ds (it + rows) = fst <$> ds_next ds it.
Proof.
  intros Hw Hm Ht Hl.
  assert (∀ A (r : list A) n, length r = rows →
    repeated_rows r (it + rows) n = repeated_rows r it n) as Hperiod.
  { intros A r n <-. apply repeated_rows_period. }
  unfold ds_next. cbv zeta. rewrite !Hperiod by done.
  unfold mbind, result_bind.
  destruct (repeated_rows (word_id_data _) it _); [|done].
  destruct (repeated_rows (mask_data _) it _); [|done].
  destruct (repeated_rows (type_id_data _) it _); [|done].
  by destruct (repeated_rows (labels _) it _).
Qed.

Lemma ds_next_period_witness :
  fst <$> ds_next demo_dataset (5 + 32) = fst <$> ds_next demo_dataset 5.
Proof. apply (ds_next_period demo_dataset 5 32); reflexivity. Defined.

(** ** More on the training loop *)

Lemma count_steps_add_trace p evs :
  count_steps (trace (add_trace p evs)) = (count_steps (trace p) + count_steps evs)%nat.
Proof. unfold add_trace. cbn [trace]. apply count_steps_app. Qed.

Section TrainEdges.

Context {W F : Type}.
Variable train_step :
  W → DTensor (list Z) * DTensor (list Z) * DTensor (list Z) → DTensor Z → W * F.
Variable fzero : F.
Variable fadd : F → F → F.
Variable fdiv : F → Z → F.
Variable reduce_mean : F → F.
Variable str_loss : F → string.
Variable dataset : Dataset.
Variable pack_fn : Packer.

Local Abbreviation one_step := (step train_step dataset pack_fn).
Local Abbreviation losses_of := (steps_losses train_step dataset pack_fn).
Local Abbreviation loop_one := (train_one train_step fadd dataset pack_fn).
Local Abbreviation loop_steps := (train_steps train_step fadd dataset pack_fn).
Local Abbreviation loop_epochs :=
  (train_epochs train_step fzero fadd fdiv reduce_mean str_loss dataset pack_fn).
Local Abbreviation run_model :=
  (train_model train_step fzero fadd fdiv reduce_mean str_loss dataset pack_fn).

Lemma train_one_raise w it total p e :
  one_step w it = Raise e → loop_one w it total p = Raise e.
Proof.
  unfold step, train_one, bindM, liftM.
  destruct (ds_next dataset it) as [batch|]; simpl; [|by intros [= ->]].
  destruct (pack_fn _ _ (word_id_data batch.1)) as [dw|]; simpl; [|by intros [= ->]].
  destruct (pack_fn _ _ (mask_data batch.1)) as [dm|]; simpl; [|by intros [= ->]].
  destruct (pack_fn _ _ (type_id_data batch.1)) as [dt|]; simpl; [|by intros [= ->]].
  destruct (pack_fn _ _ (labels batch.1)) as [dl|]; simpl; [|by intros [= ->]].
  destruct (Z.eqb (dt_shape0 dl) batch_size); simpl; [|by intros [= ->]].
  by destruct (train_step w (dw, dm, dt) dl).
Qed.

Lemma train_steps_raise n a w it total p e :
  losses_of n w it = Raise e → loop_steps (seq a n) w it total p = Raise e.
Proof.
  revert a w it total p. induction n as [|n IH]; intros a w it total p; simpl; [done|].
  destruct (one_step w it) as [[[w1 it1] l1]|e1] eqn:Hstep; simpl.
  - destruct (losses_of n w1 it1) as [[[w2 it2] l2]|e2] eqn:Hrest; simpl; [done|].
    intros [= <-]. unfold bindM.
    rewrite (train_one_step _ _ _ _ w it total p w1 it1 l1 Hstep). simpl.
    by apply IH.
  - intros [= <-]. unfold bindM. by rewrite (train_one_raise w it total p e1 Hstep).
Qed.

Lemma steps_losses_raise_app n m w it e :
  losses_of (n + m) w it = Raise e →
  losses_of n w it = Raise e ∨
  ∃ w1 it1 ls, losses_of n w it = Ok (w1, it1, ls) ∧ losses_of m w1 it1 = Raise e.
Proof.
  revert w it. induction n as [|n IH]; intros w it; simpl.
  - intros Hrun. right. by exists w, it, [].
  - destruct (one_step w it) as [[[w1 it1] l1]|e1] eqn:Hstep; simpl; [|by left].
    destruct (losses_of (n + m) w1 it1) as [[[w3 it3] l3]|e3] eqn:Hrest; simpl; [done|].
    intros [= <-].
    destruct (IH w1 it1 Hrest) as [Ha|(wa & ita & la & Ha & Hb)].
    + left. by rewrite Ha.
    + right. exists wa, ita, (l1 :: la). by rewrite Ha.
Qed.

Lemma steps_losses_total n w it :
  (∀ w it, ∃ r, one_step w it = Ok r) → ∃ r, losses_of n w it = Ok r.
Proof.
  intros Hstep. revert w it. induction n as [|n IH]; intros w it; simpl; [by eexists|].
  destruct (Hstep w it) as [[[w1 it1] l1] ->]. simpl.
  destruct (IH w1 it1) as [[[w2 it2] l2] ->]. simpl. by eexists.
Qed.

Lemma train_epochs_raise steps_per_epoch n a w it acc p e :
  steps_per_epoch ≠ 0 →
  losses_of (n * Z.to_nat steps_per_epoch) w it = Raise e →
  loop_epochs steps_per_epoch (seq a n) w it acc p = Raise e.
Proof.
  intros HS. revert a w it acc p.
  induction n as [|n IH]; intros a w it acc p; [done|].
  cbn [Nat.mul seq train_epochs]. intros Hrun.
  unfold bindM, range.
  destruct (steps_losses_raise_app _ _ _ _ _ Hrun)
    as [Hfirst|(w1 & it1 & ls & Hfirst & Hrest)].
  - by rewrite (train_steps_raise _ 0 w it fzero p e Hfirst).
  - rewrite (train_steps_run _ _ _ _ _ 0 w it fzero p w1 it1 ls Hfirst).
    unfold liftM. destruct (Z.eqb_spec steps_per_epoch 0) as [|_]; [done|].
    rewrite rprint_add_trace. cbn [fst snd].
    by apply IH.
Qed.

Lemma train_epochs_Ok steps_per_epoch n a w it acc p w' it' ls :
  steps_per_epoch ≠ 0 →
  losses_of (n * Z.to_nat steps_per_epoch) w it = Ok (w', it', ls) →
  ∃ losses p',
    loop_epochs steps_per_epoch (seq a n) w it acc p = Ok ((w', acc ++ losses), p') ∧
    length losses = n ∧
    count_steps (trace p')
      = (count_steps (trace p) + n * Z.to_nat steps_per_epoch)%nat.
Proof.
  intros HS. revert a w it acc p ls.
  induction n as [|n IH]; intros a w it acc p ls.
  - intros [= <- <- <-]. exists [], p. rewrite app_nil_r. split_and!; [done..|]. simpl. lia.
  - cbn [Nat.mul seq train_epochs]. intros Hrun.
    destruct (steps_losses_app _ _ _ _ _ _ _ _ _ _ Hrun) as (w1 & it1 & Hfirst & Hrest).
    unfold bindM, range.
    rewrite (train_steps_run _ _ _ _ _ 0 w it fzero p w1 it1 _ Hfirst).
    unfold liftM. destruct (Z.eqb_spec steps_per_epoch 0) as [|_]; [done|].
    rewrite rprint_add_trace. cbn [fst snd].
    edestruct (IH (S a) w1 it1) as (losses & p' & -> & Hlen & Hcount); [exact Hrest|].
    eexists (_ :: losses), p'. rewrite <-app_assoc. split_and!; [done|simpl; by rewrite Hlen|].
    rewrite Hcount, !count_steps_add_trace, count_steps_rprint, count_steps_replicate. lia.
Qed.

Lemma train_model_total steps_per_epoch num_epochs w p :
  steps_per_epoch ≠ 0 →
  (∀ w it, ∃ r, one_step w it = Ok r) →
  ∃ w' losses p',
    run_model steps_per_epoch num_epochs w p = Ok ((w', losses), p') ∧
    length losses = Z.to_nat num_epochs ∧
    count_steps (trace p')
      = (count_steps (trace p) + Z.to_nat num_epochs * Z.to_nat steps_per_epoch)%nat.
Proof.
  intros HS Hstep.
  destruct (steps_losses_total (Z.to_nat num_epochs * Z.to_nat steps_per_epoch) w 0 Hstep)
    as [[[w' it'] ls] Hrun].
  unfold train_model, bindM, range. rewrite rprint_add_trace.
  edestruct (train_epochs_Ok steps_per_epoch (Z.to_nat num_epochs) 0 w 0%nat [])
    as (losses & p' & -> & Hlen & Hcount); [done|exact Hrun|].
  exists w', losses, p'. split_and!; [done..|].
  rewrite Hcount, count_steps_add_trace, count_steps_rprint. lia.
Qed.

(** X14: with no epoch to run (a number of epochs that is zero or negative)
    [train_model] trains nothing: the model is as it was, no loss is
    returned, no step is taken, and the only print is the leader's line at
    the start. *)
Theorem train_model_no_epochs (steps_per_epoch num_epochs : Z) (w : W) (p : Process) :
  num_epochs ≤ 0 →
  run_model steps_per_epoch num_epochs w p
    = Ok ((w, []),
          add_trace p (rprint_events (client_id p) ["Training started..."%string])).
Proof.
  intros HE. unfold train_model, bindM, range. rewrite rprint_add_trace.
  replace (Z.to_nat num_epochs) with 0%nat by lia. reflexivity.
Qed.

(** X15: with zero steps per epoch and at least one epoch to run,
    [train_model] fails with a division by zero at the end of the first
    epoch: the sum of no losses is divided by the number of steps. *)
Theorem train_model_zero_steps (num_epochs : Z) (w : W) (p : Process) :
  0 < num_epochs →
  run_model 0 num_epochs w p = Raise ZeroDivisionError.
Proof.
  intros HE. unfold train_model, bindM, range. rewrite rprint_add_trace.
  destruct (Z.to_nat num_epochs) as [|n] eqn:Hn; [lia|]. reflexivity.
Qed.

(** X16: the training stops at the first step that fails: when one of the
    [num_epochs * steps_per_epoch] steps raises an error (the dataset is
    exhausted, the batch cannot be packed, or the assertion on the labels
    fails), [train_model] raises that error and returns no loss. *)
Theorem train_model_first_error (steps_per_epoch num_epochs : Z) (w : W) (p : Process)
    (e : error) :
  0 < steps_per_epoch →
  losses_of (Z.to_nat num_epochs * Z.to_nat steps_per_epoch) w 0 = Raise e →
  run_model steps_per_epoch num_epochs w p = Raise e.
Proof.
  intros HS Hrun. unfold train_model, bindM, range. rewrite rprint_add_trace.
  apply train_epochs_raise; [lia|done].
Qed.

End TrainEdges.

Lemma train_model_no_epochs_witness :
  train_model demo_train_step 0 Z.add Z.div (λ x, x) pretty demo_dataset demo_packer
              2 (-1) 5%nat (start_process 0 2)
    = Ok ((5%nat, []),
          add_trace (start_process 0 2)
                    (rprint_events (client_id (start_process 0 2))
                                   ["Training started..."%string])).
Proof.
  apply (train_model_no_epochs demo_train_step 0 Z.add Z.div (λ x, x) pretty
           demo_dataset demo_packer 2 (-1) 5%nat (start_process 0 2)).
  lia.
Defined.

Lemma train_model_zero_steps_witness :
  train_model demo_train_step 0 Z.add Z.div (λ x, x) pretty demo_dataset demo_packer
              0 3 0%nat (start_process 0 2)
    = Raise ZeroDivisionError.
Proof.
  apply (train_model_zero_steps demo_train_step 0 Z.add Z.div (λ x, x) pretty
           demo_dataset demo_packer 3 0%nat (start_process 0 2)).
  lia.
Defined.

Lemma train_model_first_error_witness :
  train_model demo_train_step 0 Z.add Z.div (λ x, x) pretty
              {| ds_arrays := ds_arrays demo_dataset; ds_batch := 5 |} demo_packer
              2 3 0%nat (start_process 0 2)
    = Raise InvalidArgumentError.
Proof.
  apply (train_model_first_error demo_train_step 0 Z.add Z.div (λ x, x) pretty
           {| ds_arrays := ds_arrays demo_dataset; ds_batch := 5 |} demo_packer
           2 3 0%nat (start_process 0 2) InvalidArgumentError).
  - lia.
  - vm_compute. reflexivity.
Defined.

Lemma step_on_get_dataset {W F : Type}
    (train_step :
       W → DTensor (list Z) * DTensor (list Z) * DTensor (list Z) → DTensor Z → W * F)
    (mesh : Mesh) (arrays : Arrays) (w : W) (it : nat) :
  wf_mesh mesh = true → assoc BATCH_DIM (dims mesh) = Some 4 → full_arrays arrays →
  ∃ r,
    step train_step
         {| ds_arrays := arrays;
            ds_batch := Z.to_nat (8 * Z.of_nat (replica_count BATCH_DIM mesh)) |}
         (λ A R tensor, shard_data (A:=A) (H:=R) mesh BATCH_DIM tensor) w it = Ok r.
Proof.
  intros Hwf Hd Hfull.
  assert (is_Some (assoc BATCH_DIM (dims mesh))) as Hsome by eauto.
  pose proof (replica_count_pos BATCH_DIM mesh Hwf Hsome) as HR.
  set (R := replica_count BATCH_DIM mesh) in *.
  destruct (ds_next_Ok {| ds_arrays := arrays; ds_batch := Z.to_nat (8 * Z.of_nat R) |}
              it Hfull) as (batch & Hnext & Hw & Hm & Ht & Hl).
  cbn [ds_batch] in Hnext, Hw, Hm, Ht, Hl.
  assert (Z.to_nat (8 * Z.of_nat R) = (8 * R)%nat) as HB by lia.
  rewrite HB in Hw, Hm, Ht, Hl.
  assert (∀ A (HA : Rows A) (tensor : list A), length tensor = (8 * R)%nat →
    ∃ dt, shard_data mesh BATCH_DIM tensor = Ok dt ∧ dt_shape0 dt = batch_size) as Hpack.
  { intros A HA tensor Hlen.
    assert ((R | length tensor)%nat) as Hdiv by (exists 8%nat; lia).
    destruct (shard_data_spec mesh BATCH_DIM 4 tensor Hwf Hd Hdiv)
      as (dt & Hdt & _ & _ & _ & Hshape).
    exists dt. split; [done|]. rewrite Hshape. fold R. rewrite Hlen.
    rewrite Nat.div_mul by done.
    reflexivity. }
  destruct (Hpack _ _ _ Hw) as (dw & Hdw & _).
  destruct (Hpack _ _ _ Hm) as (dm & Hdm & _).
  destruct (Hpack _ _ _ Ht) as (dt & Hdt & _).
  destruct (Hpack _ _ _ Hl) as (dl & Hdl & Hshape).
  unfold step, mbind, result_bind. rewrite Hnext. cbn [fst snd].
  rewrite Hdw, Hdm, Hdt, Hdl, Hshape. by eexists.
Qed.

(** X17: the dataset and the packer of [get_dataset] carry [train_model]
    through: at a well-formed client of the 4 x 2 mesh, whatever the
    training step does and for any number of epochs and any positive number
    of steps per epoch, the training ends without an error (the dataset
    never runs out, every batch can be split among the local replicas, and
    the assertion on the labels holds), after [num_epochs * steps_per_epoch]
    steps and with one loss per epoch. *)
Theorem training_on_get_dataset_succeeds {W F : Type}
    (train_step :
       W → DTensor (list Z) * DTensor (list Z) * DTensor (list Z) → DTensor Z → W * F)
    (fzero : F) (fadd : F → F → F) (fdiv : F → Z → F) (reduce_mean : F → F)
    (str_loss : F → string)
    (peers : nat → Z) (mesh : Mesh) (p : Process)
    (steps_per_epoch num_epochs : Z) (w : W) :
  wf_mesh mesh = true →
  assoc BATCH_DIM (dims mesh) = Some 4 →
  wf_process p →
  (∀ i, 0 ≤ peers i < 4) →
  0 < steps_per_epoch →
  ∃ dataset (pack_fn : Packer) p1 w' losses p2,
    get_dataset peers mesh p = Ok ((dataset, pack_fn), p1) ∧
    train_model train_step fzero fadd fdiv reduce_mean str_loss dataset pack_fn
                steps_per_epoch num_epochs w p1 = Ok ((w', losses), p2) ∧
    length losses = Z.to_nat num_epochs ∧
    count_steps (trace p2)
      = (count_steps (trace p1) + Z.to_nat num_epochs * Z.to_nat steps_per_epoch)%nat.
Proof.
  intros Hwf Hd Hp Hpeers HS.
  destruct (get_dataset_Ok peers mesh p Hwf Hd Hp Hpeers)
    as (pp & arrays & p0 & p1 & _ & _ & _ & _ & Hfull & Hds).
  destruct (train_model_total train_step fzero fadd fdiv reduce_mean str_loss
              {| ds_arrays := arrays;
                 ds_batch := Z.to_nat (8 * Z.of_nat (replica_count BATCH_DIM mesh)) |}
              (λ A R tensor, shard_data (A:=A) (H:=R) mesh BATCH_DIM tensor)
              steps_per_epoch num_epochs w p1)
    as (w' & losses & p2 & Hrun & Hlen & Hcount); [lia| |].
  { intros w0 it. by apply step_on_get_dataset. }
  eexists _, _, p1, w', losses, p2. split_and!; [exact Hds|exact Hrun|done..].
Qed.

Lemma training_on_get_dataset_succeeds_witness :
  ∃ dataset (pack_fn : Packer) p1 w' losses p2,
    get_dataset (round_peers [0; 2]) client_A (start_process 0 2)
      = Ok ((dataset, pack_fn), p1) ∧
    train_model demo_train_step 0 Z.add Z.div (λ x, x) pretty dataset pack_fn
                2 3 0%nat p1 = Ok ((w', losses), p2) ∧
    length losses = Z.to_nat 3 ∧
    count_steps (trace p2) = (count_steps (trace p1) + Z.to_nat 3 * Z.to_nat 2)%nat.
Proof.
  apply (training_on_get_dataset_succeeds demo_train_step 0 Z.add Z.div (λ x, x) pretty
           (round_peers [0; 2]) client_A (start_process 0 2) 2 3 0%nat).
  - reflexivity.
  - reflexivity.
  - split; [simpl; lia|]. intros m Hm. discriminate Hm.
  - intros [|[|i]]; unfold round_peers; simpl; lia.
  - lia.
Defined.

(** ** More on printing *)

Lemma str_append_cons (c : Ascii.ascii) (s t : string) :
  (String c s +:+ t)%string = String c (s +:+ t).
Proof. reflexivity. Qed.

Lemma str_append_nil_r (s : string) : (s +:+ "")%string = s.
Proof. induction s as [|c s IH]; [done|]. by rewrite str_append_cons, IH. Qed.

Lemma str_append_assoc (s1 s2 s3 : string) :
  ((s1 +:+ s2) +:+ s3 = s1 +:+ (s2 +:+ s3))%string.
Proof. induction s1 as [|c s1 IH]; [done|]. by rewrite !str_append_cons, IH. Qed.

Lemma str_rev_app (s1 s2 : string) :
  String.rev_app s1 s2 = (String.rev_app s1 EmptyString +:+ s2)%string.
Proof.
  revert s2. induction s1 as [|c s1 IH]; intros s2; [done|].
  cbn [String.rev_app]. rewrite (IH (String c s2)), (IH (String c EmptyString)).
  by rewrite str_append_assoc.
Qed.

Lemma str_rev_cons (c : Ascii.ascii) (s : string) :
  String.rev (String c s) = (String.rev s +:+ String c EmptyString)%string.
Proof. unfold String.rev. cbn [String.rev_app]. apply str_rev_app. Qed.

Lemma single_line_app (s1 s2 : string) :
  single_line (s1 +:+ s2) = single_line s1 && single_line s2.
Proof.
  induction s1 as [|c s1 IH]; [done|].
  rewrite str_append_cons. cbn [single_line]. rewrite IH. by rewrite andb_assoc.
Qed.

Lemma split_lines_String (c : Ascii.ascii) (s : string) :
  ∃ h t, split_lines s = h :: t ∧
    split_lines (String c s)
    = if Ascii.eqb c (Ascii.ascii_of_nat 10) then EmptyString :: h :: t
      else String c h :: t.
Proof.
  assert (∀ s acc, ∃ h t, split_lines s = h :: t ∧
            split_lines_aux acc s = (String.rev acc +:+ h)%string :: t) as Haux.
  { clear. induction s as [|c s IH]; intros acc.
    - exists EmptyString, []. split; [done|]. cbn [split_lines_aux].
      by rewrite str_append_nil_r.
    - unfold split_lines. cbn [split_lines_aux].
      destruct (Ascii.eqb c (Ascii.ascii_of_nat 10)).
      + exists EmptyString, (split_lines_aux EmptyString s). split; [done|].
        by rewrite str_append_nil_r.
      + destruct (IH (String c EmptyString)) as (h & t & Hs & Ha).
        destruct (IH (String c acc)) as (h' & t' & Hs' & Ha').
        rewrite Hs in Hs'. injection Hs' as <- <-.
        exists (String c h), t. rewrite Ha, Ha'. split; [done|].
        by rewrite str_rev_cons, str_append_assoc. }
  destruct (Haux s EmptyString) as (h & t & Hs & _). exists h, t. split; [done|].
  unfold split_lines at 1. cbn [split_lines_aux].
  destruct (Ascii.eqb c (Ascii.ascii_of_nat 10)).
  - fold (split_lines s). by rewrite Hs.
  - destruct (Haux s (String c EmptyString)) as (h' & t' & Hs' & ->).
    rewrite Hs in Hs'. by injection Hs' as <- <-.
Qed.

Lemma split_lines_nonempty (s : string) : split_lines s ≠ [].
Proof.
  destruct s as [|c s]; [done|].
  destruct (split_lines_String c s) as (h & t & _ & ->).
  by destruct (Ascii.eqb c (Ascii.ascii_of_nat 10)).
Qed.

Lemma split_lines_single_line (s : string) : single_line s = true → split_lines s = [s].
Proof.
  induction s as [|c s IH]; [done|]. cbn [single_line]. intros [Hc Hs]%andb_prop.
  destruct (split_lines_String c s) as (h & t & Hsplit & ->).
  apply negb_true_iff in Hc. rewrite Hc. rewrite (IH Hs) in Hsplit.
  by injection Hsplit as <- <-.
Qed.

Lemma split_lines_line_break (s rest : string) :
  single_line s = true →
  split_lines (s +:+ newline +:+ rest) = s :: split_lines rest.
Proof.
  intros Hs. induction s as [|c s IH].
  - change (EmptyString +:+ newline +:+ rest)%string
      with (String (Ascii.ascii_of_nat 10) rest).
    destruct (split_lines_String (Ascii.ascii_of_nat 10) rest) as (h & t & Hsplit & ->).
    by rewrite Ascii.eqb_refl, Hsplit.
  - cbn [single_line] in Hs. apply andb_prop in Hs as [Hc Hs].
    rewrite str_append_cons.
    destruct (split_lines_String c (s +:+ newline +:+ rest)) as (h & t & Hsplit & ->).
    apply negb_true_iff in Hc. rewrite Hc. rewrite (IH Hs) in Hsplit.
    by injection Hsplit as <- <-.
Qed.

Lemma split_lines_single (s : string) : Forall (λ l, single_line l = true) (split_lines s).
Proof.
  induction s as [|c s IH]; [by repeat constructor|].
  destruct (split_lines_String c s) as (h & t & Hsplit & ->).
  rewrite Hsplit in IH. apply Forall_cons in IH as [Hh Ht].
  destruct (Ascii.eqb c (Ascii.ascii_of_nat 10)) eqn:Hc.
  - by repeat constructor.
  - constructor; [|done]. cbn [single_line]. by rewrite Hc, Hh.
Qed.

Lemma split_lines_join (ls : list string) :
  ls ≠ [] → Forall (λ l, single_line l = true) ls → split_lines (join newline ls) = ls.
Proof.
  induction ls as [|l ls IH]; [done|]. intros _ [Hl Hls]%Forall_cons.
  destruct ls as [|l' ls].
  - by apply split_lines_single_line.
  - cbn [join]. rewrite split_lines_line_break by done. f_equal. by apply IH.
Qed.

Lemma single_line_pretty_N_go (x : N) (s : string) :
  single_line s = true → single_line (pretty_N_go x s) = true.
Proof.
  revert s. induction (N.lt_wf_0 x) as [x _ IH]; intros s Hs.
  assert (x = 0 ∨ 0 < x)%N as [->|Hx] by lia.
  - by rewrite pretty_N_go_0.
  - rewrite pretty_N_go_step by done. apply IH.
    { by apply N.div_lt. }
    cbn [single_line]. rewrite Hs.
    unfold pretty_N_char. by repeat case_match.
Qed.

Lemma single_line_concat (sep : string) (ls : list string) :
  single_line sep = true → Forall (λ l, single_line l = true) ls →
  single_line (String.concat sep ls) = true.
Proof.
  intros Hsep. induction 1 as [|l ls Hl Hls IH]; [done|].
  cbn [String.concat]. destruct ls as [|l' ls]; [done|].
  by rewrite !single_line_app, Hl, Hsep, IH.
Qed.

Lemma single_line_pad03 (n : nat) : single_line (pad03 n) = true.
Proof.
  unfold pad03. rewrite single_line_app. apply andb_true_intro. split.
  - apply single_line_concat; [done|]. by apply Forall_replicate.
  - unfold pretty, pretty_nat, pretty, pretty_N. case_decide; [done|].
    by apply single_line_pretty_N_go.
Qed.

(** X18: [dprint] prints the message line by line: what it prints has as
    many lines as the message, and every line is the line of the message
    behind the prefix with the client id. *)
Theorem dprint_lines (args : list string) (p : Process) :
  ∃ msg,
    dprint args p = Ok (tt, add_trace p [EvPrint msg]) ∧
    split_lines msg
    = map (λ line, ("[Client: " +:+ pad03 (client_id p) +:+ "] ") +:+ line)%string
          (split_lines (join " " args)).
Proof.
  eexists. split; [reflexivity|].
  apply split_lines_join.
  - intros Hnil. apply map_eq_nil in Hnil. by apply split_lines_nonempty in Hnil.
  - apply Forall_map. eapply Forall_impl; [apply split_lines_single|].
    intros line Hline. cbn beta.
    rewrite !single_line_app, single_line_pad03, Hline. reflexivity.
Qed.
